(** * CORAL 66 semantic parser: a shallow embedding of
      [coral66_semantic_parser.py] and the properties of its analysis.

    Python [str] values are modelled as [string]; the character tests behind
    [\w], [\s], [\d], [str.upper], [str.lower] and [str.strip] are Python's on
    the 7-bit ASCII range, which is the alphabet of CORAL 66 source text.
    Python [int] values are [Z].  The [dict] of symbols is a [gmap] (no
    property below depends on the order of its keys), the keyword [set] a
    [gset].  An operation that raises in Python returns [Raise] in the
    [pyres] monad. *)

From Stdlib Require Import ZArith List Ascii String Bool Lia.
From stdpp Require Import base option list gmap strings pretty sorting.

Local Open Scope string_scope.
Local Open Scope Z_scope.

(** ** Python results and exceptions *)

Inductive pyexn : Type :=
| AttributeError   (* a method called on [None] *)
| TypeError        (* [None] passed where a string is expected *)
| IndexError       (* list index out of range *)
| KeyError.        (* missing dictionary key *)

Inductive pyres (A : Type) : Type :=
| Ok (a : A)
| Raise (e : pyexn).
Arguments Ok {A} a.
Arguments Raise {A} e.

Definition pybind {A B : Type} (m : pyres A) (f : A → pyres B) : pyres B :=
  match m with
  | Ok a => f a
  | Raise e => Raise e
  end.

#[global] Instance pyres_bind : MBind pyres := λ A B f m, pybind m f.
#[global] Instance pyres_ret : MRet pyres := @Ok.

(** A method call [x.m()] on an optional value: [AttributeError] on [None]. *)
Definition attr {A : Type} (o : option A) : pyres A :=
  match o with
  | Some a => Ok a
  | None => Raise AttributeError
  end.

(** An argument that must be a string: [TypeError] on [None]. *)
Definition arg {A : Type} (o : option A) : pyres A :=
  match o with
  | Some a => Ok a
  | None => Raise TypeError
  end.

(** [for x in l: body], threading the mutated object. *)
Fixpoint for_each {A S : Type} (l : list A) (body : A → S → pyres S) (s : S)
  : pyres S :=
  match l with
  | [] => Ok s
  | x :: l' => s' ← body x s; for_each l' body s'
  end.

(** ** Characters and strings *)

Module Char.

Definition code (c : ascii) : nat := nat_of_ascii c.

Definition between (lo hi : nat) (c : ascii) : bool :=
  (lo <=? code c)%nat && (code c <=? hi)%nat.

Definition is_upper : ascii → bool := between 65 90.
Definition is_lower : ascii → bool := between 97 122.
Definition is_digit : ascii → bool := between 48 57.
Definition is_alpha (c : ascii) : bool := is_upper c || is_lower c.
Definition is_alnum (c : ascii) : bool := is_alpha c || is_digit c.

(** [\w] *)
Definition is_word (c : ascii) : bool := is_alnum c || (code c =? 95)%nat.

(** [\s] and [str.isspace]: TAB LF VT FF CR, FS GS RS US, SPACE. *)
Definition is_space (c : ascii) : bool :=
  between 9 13 c || between 28 31 c || (code c =? 32)%nat.

Definition upper (c : ascii) : ascii :=
  if is_lower c then ascii_of_nat (code c - 32) else c.
Definition lower (c : ascii) : ascii :=
  if is_upper c then ascii_of_nat (code c + 32) else c.

Definition eqb (a b : ascii) : bool := Ascii.eqb a b.
(** Equality of characters under [re.IGNORECASE]. *)
Definition eqb_i (a b : ascii) : bool := Ascii.eqb (lower a) (lower b).

Definition LF : ascii := ascii_of_nat 10.

End Char.

Module Str.

Definition chars (s : string) : list ascii := list_ascii_of_string s.
Definition of_chars (l : list ascii) : string := string_of_list_ascii l.

Definition len (s : string) : Z := Z.of_nat (String.length s).

Definition upper (s : string) : string := of_chars (map Char.upper (chars s)).
Definition lower (s : string) : string := of_chars (map Char.lower (chars s)).

Definition is_empty (s : string) : bool :=
  match s with EmptyString => true | _ => false end.

(** [s[:n]] and [s[i:j]] for offsets within range. *)
Definition prefix (n : nat) (s : string) : string := of_chars (take n (chars s)).
Definition slice (i j : nat) (l : list ascii) : string :=
  of_chars (take (j - i) (drop i l)).

(** [s.split(sep)] for a one-character separator. *)
Fixpoint split_chars (sep : ascii) (cur : list ascii) (l : list ascii)
  : list (list ascii) :=
  match l with
  | [] => [rev cur]
  | c :: l' =>
      if Char.eqb c sep then rev cur :: split_chars sep [] l'
      else split_chars sep (c :: cur) l'
  end.
Definition split (sep : ascii) (s : string) : list string :=
  map of_chars (split_chars sep [] (chars s)).

(** [s.strip()] *)
Fixpoint lstrip_chars (l : list ascii) : list ascii :=
  match l with
  | c :: l' => if Char.is_space c then lstrip_chars l' else l
  | [] => []
  end.
Definition strip (s : string) : string :=
  of_chars (rev (lstrip_chars (rev (lstrip_chars (chars s))))).

(** [s.count(c)] *)
Definition count (c : ascii) (s : string) : Z :=
  Z.of_nat (length (filter (λ x, Char.eqb x c = true) (chars s))).

(** Index of the last [c] in [l], counting from [i]; -1 if there is none. *)
Fixpoint rfind_chars (c : ascii) (i : Z) (l : list ascii) (last : Z) : Z :=
  match l with
  | [] => last
  | x :: l' => rfind_chars c (i + 1) l' (if Char.eqb x c then i else last)
  end.
(** [s.rfind(c, 0, stop)] *)
Definition rfind (c : ascii) (stop : nat) (s : string) : Z :=
  rfind_chars c 0 (take stop (chars s)) (-1).

Fixpoint starts_with (p l : list ascii) : bool :=
  match p, l with
  | [], _ => true
  | a :: p', b :: l' => Char.eqb a b && starts_with p' l'
  | _ :: _, [] => false
  end.
Fixpoint find_chars (p : list ascii) (i : Z) (l : list ascii) : Z :=
  if starts_with p l then i
  else match l with
       | [] => -1
       | _ :: l' => find_chars p (i + 1) l'
       end.
(** [s.find(sub)]: offset of the first occurrence, -1 if there is none. *)
Definition find (sub s : string) : Z := find_chars (chars sub) 0 (chars s).

(** [c in s] *)
Definition contains (c : ascii) (s : string) : bool :=
  existsb (λ x, Char.eqb x c) (chars s).

(** [sep.join(l)] *)
Fixpoint join (sep : string) (l : list string) : string :=
  match l with
  | [] => ""
  | [x] => x
  | x :: l' => x +:+ sep +:+ join sep l'
  end.

(** [str(n)] for an integer. *)
Definition of_int (n : Z) : string := pretty n.

(** An optional string inside an f-string: [None] prints as its name. *)
Definition fmt (o : option string) : string := default "None" o.

End Str.


(** ** Regular expressions: Python's backtracking [re] engine *)

Module Re.

(** The fragment of [re] syntax the parser's patterns use.  Alternatives
    are tried left to right, [Star] is greedy, and the first successful
    path wins. *)
Inductive regex : Type :=
| Eps                          (* the empty pattern *)
| Chr (p : ascii → bool)       (* one character of a class *)
| Seq (r1 r2 : regex)          (* r1 r2 *)
| Alt (r1 r2 : regex)          (* r1|r2 *)
| Star (r : regex)             (* r* *)
| Group (n : nat) (r : regex)  (* capturing group number n *)
| WordB                        (* \b *)
| NotAhead (r : regex).        (* (?!r) *)

Definition Plus (r : regex) : regex := Seq r (Star r).   (* r+ *)
Definition Opt (r : regex) : regex := Alt r Eps.         (* r? *)
Definition Cat (l : list regex) : regex := foldr Seq Eps l.

(** A literal character, and a literal under [re.IGNORECASE]. *)
Definition Lit (c : ascii) : regex := Chr (Char.eqb c).
Definition LitI (c : ascii) : regex := Chr (Char.eqb_i c).
Definition Word (s : string) : regex := Cat (map Lit (Str.chars s)).
Definition WordI (s : string) : regex := Cat (map LitI (Str.chars s)).
(** [[^c]] *)
Definition Not (c : ascii) : regex := Chr (λ x, negb (Char.eqb x c)).

(** The matcher's position in the subject: offset, the character before
    it, the characters from it on, and the spans of the groups so far. *)
Record mstate : Type := MState {
  m_pos : nat;
  m_prev : option ascii;
  m_rest : list ascii;
  m_caps : gmap nat (nat * nat)
}.

Definition is_word_opt (o : option ascii) : bool :=
  match o with Some c => Char.is_word c | None => false end.

(** [\b]: exactly one side of the position is a word character. *)
Definition at_boundary (st : mstate) : bool :=
  xorb (is_word_opt (m_prev st)) (is_word_opt (head (m_rest st))).

(** The loop of [r*]: [body] is the matcher of [r].  An iteration must
    consume input, so [n], the length of the remaining subject, bounds the
    number of iterations; the loop is greedy and falls back to [k]. *)
Fixpoint star_iter (body : mstate → (mstate → option mstate) → option mstate)
    (k : mstate → option mstate) (n : nat) (st : mstate) {struct n}
  : option mstate :=
  match n with
  | O => k st
  | S n' =>
      match body st (λ st1, if (m_pos st <? m_pos st1)%nat
                            then star_iter body k n' st1 else None) with
      | Some res => Some res
      | None => k st
      end
  end.

Definition advance (c : ascii) (cs : list ascii) (st : mstate) : mstate :=
  MState (S (m_pos st)) (Some c) cs (m_caps st).

Definition capture (n start : nat) (st : mstate) : mstate :=
  MState (m_pos st) (m_prev st) (m_rest st)
    (<[n := (start, m_pos st)]> (m_caps st)).

(** [rmatch r st k] matches [r] at [st] and hands each way of matching it,
    most preferred first, to the continuation [k] until [k] succeeds. *)
Fixpoint rmatch (r : regex) (st : mstate) (k : mstate → option mstate)
  {struct r} : option mstate :=
  match r with
  | Eps => k st
  | Chr p =>
      match m_rest st with
      | c :: cs => if p c then k (advance c cs st) else None
      | [] => None
      end
  | Seq r1 r2 => rmatch r1 st (λ st1, rmatch r2 st1 k)
  | Alt r1 r2 =>
      match rmatch r1 st k with
      | Some res => Some res
      | None => rmatch r2 st k
      end
  | Star r1 => star_iter (rmatch r1) k (length (m_rest st)) st
  | Group n r1 => rmatch r1 st (λ st1, k (capture n (m_pos st) st1))
  | WordB => if at_boundary st then k st else None
  | NotAhead r1 =>
      match rmatch r1 st Some with
      | Some _ => None
      | None => k st
      end
  end.

(** [binds n r]: every match of [r] gives group [n] a span. *)
Fixpoint binds (n : nat) (r : regex) : bool :=
  match r with
  | Group m r1 => (n =? m)%nat || binds n r1
  | Seq r1 r2 => binds n r1 || binds n r2
  | Alt r1 r2 => binds n r1 && binds n r2
  | _ => false
  end.

(** A match object: the subject, the span of the whole match, and the
    spans of the groups that took part in it. *)
Record rematch : Type := ReMatch {
  mt_text : list ascii;
  mt_start : nat;
  mt_end : nat;
  mt_caps : gmap nat (nat * nat)
}.

(** [m.start()], [m.end()], [m.group(0)], [m.group(n)] *)
Definition start (m : rematch) : Z := Z.of_nat (mt_start m).
Definition end_ (m : rematch) : Z := Z.of_nat (mt_end m).
Definition group0 (m : rematch) : string :=
  Str.slice (mt_start m) (mt_end m) (mt_text m).
Definition group (m : rematch) (n : nat) : option string :=
  (λ se, Str.slice se.1 se.2 (mt_text m)) <$> mt_caps m !! n.

(** The scan behind [re.finditer]: at offset [pos], with [skip] characters
    of the previous match still to pass, try the pattern; after a match
    resume at its end (one character further on after an empty match). *)
Fixpoint scan (r : regex) (text : list ascii) (pos : nat)
    (prev : option ascii) (rest : list ascii) (skip : nat)
    {struct rest} : list rematch :=
  match skip with
  | S skip' =>
      match rest with
      | [] => []
      | c :: cs => scan r text (S pos) (Some c) cs skip'
      end
  | O =>
      match rmatch r (MState pos prev rest ∅) Some with
      | Some st =>
          ReMatch text pos (m_pos st) (m_caps st) ::
          match rest with
          | [] => []
          | c :: cs => scan r text (S pos) (Some c) cs (m_pos st - pos - 1)
          end
      | None =>
          match rest with
          | [] => []
          | c :: cs => scan r text (S pos) (Some c) cs 0
          end
      end
  end.

(** [re.finditer(r, s)] *)
Definition finditer (r : regex) (s : string) : list rematch :=
  scan r (Str.chars s) 0 None (Str.chars s) 0.

(** [re.search(r, s)] *)
Definition search (r : regex) (s : string) : option rematch :=
  head (finditer r s).

Definition covered (ms : list rematch) (i : nat) : bool :=
  existsb (λ m, (mt_start m <=? i)%nat && (i <? mt_end m)%nat) ms.

Fixpoint cut (ms : list rematch) (i : nat) (l : list ascii) : list ascii :=
  match l with
  | [] => []
  | c :: l' => if covered ms i then cut ms (S i) l' else c :: cut ms (S i) l'
  end.

(** [re.sub(r, '', s)]: the subject without the matched spans. *)
Definition sub_empty (r : regex) (s : string) : string :=
  Str.of_chars (cut (finditer r s) 0 (Str.chars s)).

(** *** Relations between states of the matcher, for its invariants *)

(** Groups are only ever added along a match. *)
Definition caps_le (c c' : gmap nat (nat * nat)) : Prop :=
  ∀ n, is_Some (c !! n) → is_Some (c' !! n).

(** The same between two states of the matcher. *)
Definition caps_grow (st st' : mstate) : Prop :=
  caps_le (m_caps st) (m_caps st').

(** [consumed n st st']: the matcher went from [st] to [st'] over at
    least [n] characters of the subject. *)
Definition consumed (n : nat) (st st' : mstate) : Prop :=
  ∃ l, m_rest st = (l ++ m_rest st')%list ∧
       m_pos st' = (m_pos st + length l)%nat ∧ (n ≤ length l)%nat.

(** The least number of characters a match of [r] spans. *)
Fixpoint min_len (r : regex) : nat :=
  match r with
  | Chr _ => 1
  | Seq r1 r2 => min_len r1 + min_len r2
  | Alt r1 r2 => min_len r1 `min` min_len r2
  | Group _ r1 => min_len r1
  | _ => 0
  end.

(** The texts a pattern can match, its position tests apart. *)
Inductive lang : regex → list ascii → Prop :=
| lang_eps : lang Eps []
| lang_chr p c : p c = true → lang (Chr p) [c]
| lang_seq r1 r2 l1 l2 :
    lang r1 l1 → lang r2 l2 → lang (Seq r1 r2) (l1 ++ l2)%list
| lang_alt_l r1 r2 l : lang r1 l → lang (Alt r1 r2) l
| lang_alt_r r1 r2 l : lang r2 l → lang (Alt r1 r2) l
| lang_star_nil r : lang (Star r) []
| lang_star_cons r l1 l2 :
    lang r l1 → lang (Star r) l2 → lang (Star r) (l1 ++ l2)%list
| lang_group n r l : lang r l → lang (Group n r) l
| lang_wordb : lang WordB []
| lang_notahead r : lang (NotAhead r) [].

(** [spans r st st']: the matcher went from [st] to [st'] over a text of
    the language of [r]. *)
Definition spans (r : regex) (st st' : mstate) : Prop :=
  ∃ l, m_rest st = (l ++ m_rest st')%list ∧
       m_pos st' = (m_pos st + length l)%nat ∧ lang r l.

End Re.

(** ** The data model *)

Inductive SymbolKind : Type :=
| VARIABLE | ARRAY | TABLE | PROCEDURE | FUNCTION
| SWITCH | LABEL | PARAMETER | ELEMENT | OVERLAY.

Module Symbol.
Record t : Type := Make {
  name : string;
  kind : SymbolKind;
  data_type : string;
  line : Z;
  column : Z;
  end_line : Z;
  end_column : Z;
  scope : string;
  documentation : string;
  parameters : list string;
  dimensions : list string;
  elements : list string
}.
End Symbol.

Module Reference.
Record t : Type := Make {
  name : string;
  line : Z;
  column : Z;
  end_column : Z;
  context : string
}.
End Reference.

Module Diagnostic.
Record t : Type := Make {
  line : Z;
  column : Z;
  end_column : Z;
  message : string;
  severity : string
}.
End Diagnostic.

(** The fields of a [CORAL66Parser] instance. *)
Record CORAL66Parser : Type := Parser {
  symbols : gmap string Symbol.t;
  references : list Reference.t;
  diagnostics : list Diagnostic.t;
  lines : list string;
  current_scope : string;
  scope_stack : list string
}.

Definition KEYWORDS : gset string :=
  list_to_set
    [ "BEGIN"; "END";
      "IF"; "THEN"; "ELSE"; "FOR"; "DO"; "WHILE"; "STEP"; "UNTIL"; "GOTO";
      "PROCEDURE"; "RECURSIVE"; "ANSWER";
      "FLOATING"; "FIXED"; "INTEGER"; "UNSIGNED";
      "ARRAY"; "TABLE"; "SWITCH"; "OVERLAY"; "WITH"; "PRESET";
      "VALUE"; "LOCATION";
      "COMMON"; "LIBRARY"; "EXTERNAL"; "ABSOLUTE";
      "BITS"; "LABEL";
      "AND"; "OR"; "DIFFER"; "UNION"; "MASK";
      "OCTAL"; "LITERAL";
      "COMMENT";
      "DEFINE"; "DELETE";
      "CODE" ].

(** [s in self.KEYWORDS] *)
Definition is_keyword (s : string) : bool := bool_decide (s ∈ KEYWORDS).

(** [self.symbols[key] = sym] and [self.references.append(ref)] *)
Definition set_symbol (key : string) (sym : Symbol.t) (self : CORAL66Parser)
  : CORAL66Parser :=
  Parser (<[key := sym]> (symbols self)) (references self) (diagnostics self)
         (lines self) (current_scope self) (scope_stack self).

Definition add_reference (ref : Reference.t) (self : CORAL66Parser)
  : CORAL66Parser :=
  Parser (symbols self) (references self ++ [ref])%list (diagnostics self)
         (lines self) (current_scope self) (scope_stack self).

Definition __init__ : CORAL66Parser :=
  Parser ∅ [] [] [] "global" ["global"].

(** ** The patterns of the parser

    Each definition transcribes one pattern string of the source, named by
    the method and the source line that holds it.  [Group n] is the n-th
    parenthesis of the pattern; [(?: )] groups are plain sequences. *)

Module Pat.
Import Re.

Definition s : regex := Chr Char.is_space.                  (* \s *)
Definition d : regex := Chr Char.is_digit.                  (* \d *)

(** An identifier, [[a-zA-Z][a-zA-Z0-9]*]. *)
Definition ident : regex :=
  Seq (Chr Char.is_alpha) (Star (Chr Char.is_alnum)).

(** An identifier followed by any number of [\s*,\s*] identifier. *)
Definition id_list : regex :=
  Seq ident (Star (Cat [Star s; Lit ","; Star s; ident])).

(** The optional preset [\s*:=\s*] followed by a group of one or more
    characters other than [;]. *)
Definition preset (n : nat) : regex :=
  Opt (Cat [Star s; Word ":="; Star s; Group n (Plus (Not ";"))]).

(** The arguments of FIXED: [\s*], an opening parenthesis, [\s*(\d+)\s*,]
    [\s*(-?\d+)\s*] and a closing parenthesis; groups 2 and 3. *)
Definition fixed_args : regex :=
  Cat [Star s; Lit "("; Star s; Group 2 (Plus d); Star s; Lit ","; Star s;
       Group 3 (Seq (Opt (Lit "-")) (Plus d)); Star s; Lit ")"].

(** A type keyword with a parenthesised argument of one or more
    characters other than the closing parenthesis. *)
Definition with_args (type : string) : regex :=
  Cat [WordI type; Star s; Lit "("; Plus (Not ")"); Lit ")"].

(** [_remove_comments], line 155 (IGNORECASE). *)
Definition comment : regex :=
  Cat [WordB; WordI "COMMENT"; WordB; Star (Not ";"); Lit ";"].

(** [_parse_number_declarations], lines 174 and 194 (IGNORECASE), for
    [type] INTEGER and FLOATING. *)
Definition number (type : string) : regex :=
  Cat [WordB; Group 1 (WordI type); Plus s; Group 2 id_list; preset 3].

(** [_parse_number_declarations], line 213 (IGNORECASE). *)
Definition fixed : regex :=
  Cat [WordB; Group 1 (WordI "FIXED"); fixed_args; Plus s; Group 4 id_list;
       preset 5].

(** [_parse_array_declarations], line 241 (IGNORECASE). *)
Definition array : regex :=
  Cat [WordB; Group 1 (Alt (WordI "INTEGER") (WordI "FLOATING")); Plus s;
       WordI "ARRAY"; Plus s; Group 2 ident; Star s;
       Lit "["; Group 3 (Plus (Not "]")); Lit "]"].

(** [_parse_array_declarations], line 259 (IGNORECASE). *)
Definition fixed_array : regex :=
  Cat [WordB; Group 1 (WordI "FIXED"); fixed_args; Plus s;
       WordI "ARRAY"; Plus s; Group 4 ident; Star s;
       Lit "["; Group 5 (Plus (Not "]")); Lit "]"].

(** [_parse_table_declarations], line 286 (IGNORECASE, DOTALL). *)
Definition table : regex :=
  Cat [WordB; WordI "TABLE"; Plus s; Group 1 ident; Star s;
       Lit "["; Star s; Group 2 (Plus d); Star s; Lit ","; Star s;
       Group 3 (Plus d); Star s; Lit "]"; Star s;
       Lit "["; Group 4 (Star (Not "]")); Lit "]"].

(** [_parse_table_declarations], line 298 (IGNORECASE). *)
Definition element : regex :=
  Cat [Group 1 ident; Plus s;
       Group 2 (Alt (WordI "INTEGER")
               (Alt (WordI "FLOATING")
               (Alt (with_args "FIXED") (with_args "UNSIGNED"))));
       Plus s; Group 3 (Seq (Opt (Lit "-")) (Plus d));
       Opt (Cat [Star s; Lit ","; Star s; Group 4 (Plus d)])].

(** [_parse_procedure_declarations], line 337 (IGNORECASE). *)
Definition procedure : regex :=
  Cat [WordB;
       Opt (Group 1 (Alt (WordI "INTEGER")
                    (Alt (WordI "FLOATING") (with_args "FIXED"))));
       Star s; Opt (Group 2 (Seq (WordI "RECURSIVE") (Plus s)));
       WordI "PROCEDURE"; Plus s; Group 3 ident; Star s;
       Opt (Cat [Lit "("; Group 4 (Star (Not ")")); Lit ")"]);
       Star s; Lit ";"].

(** [_parse_procedure_declarations], line 365 (no flags). *)
Definition param_ids : regex := Cat [Lit ":"; Star s; Group 1 id_list].

(** [_parse_switch_declarations], line 397 (IGNORECASE). *)
Definition switch : regex :=
  Cat [WordB; WordI "SWITCH"; Plus s; Group 1 ident; Star s; Word ":=";
       Star s; Group 2 id_list].

(** [_parse_overlay_declarations], line 420 (IGNORECASE). *)
Definition overlay : regex :=
  Cat [WordB; WordI "OVERLAY"; Plus s;
       Group 1 (Seq ident
                  (Opt (Cat [Star s; Lit "["; Star (Not "]"); Lit "]"])));
       Plus s; WordI "WITH"; Plus s].

(** [_parse_labels], line 442 (no flags): an identifier, [\s*], a colon,
    and no [=] next. *)
Definition label : regex :=
  Cat [WordB; Group 1 ident; Star s; Lit ":"; NotAhead (Lit "=")].

(** [_parse_references], line 464, and the three position queries,
    lines 526, 559 and 582 (no flags): [\b] identifier [\b]. *)
Definition word : regex := Cat [WordB; Group 1 ident; WordB].

End Pat.

(** ** The parser *)

(** A value used as a condition: [None] and the empty string are false. *)
Definition truthy (o : option string) : bool :=
  match o with
  | Some x => negb (Str.is_empty x)
  | None => false
  end.

(** [[x.strip() for x in text.split(sep)]] *)
Definition split_strip (sep : ascii) (text : string) : list string :=
  map Str.strip (Str.split sep text).

Definition _remove_comments (text : string) : string :=
  Re.sub_empty Pat.comment text.

(** Offsets passed in are sums of [match.start()] and [str.find] results on
    a substring of the match, hence never negative. *)
Definition _find_position (text : string) (match_start : Z) : Z * Z :=
  let line := Str.count Char.LF (Str.prefix (Z.to_nat match_start) text) in
  let last_newline := Str.rfind Char.LF (Z.to_nat match_start) text in
  let column :=
    if 0 <=? last_newline then match_start - last_newline - 1 else match_start in
  (line, column).

(** The body shared by the three loops of [_parse_number_declarations]:
    [for id_name in ids: if id_name and not id_name.upper() in KEYWORDS: ...] *)
Definition declare_ids (text : string) (m : Re.rematch)
    (type_name doc : string) (ids : list string) (self : CORAL66Parser)
  : CORAL66Parser :=
  foldl
    (λ self id_name,
       if negb (Str.is_empty id_name) && negb (is_keyword (Str.upper id_name))
       then
         let '(line, col) := _find_position text (Re.start m) in
         set_symbol (Str.lower id_name)
           {| Symbol.name := Str.lower id_name;
              Symbol.kind := VARIABLE;
              Symbol.data_type := type_name;
              Symbol.line := line;
              Symbol.column := col;
              Symbol.end_line := 0;
              Symbol.end_column := 0;
              Symbol.scope := "global";
              Symbol.documentation := doc;
              Symbol.parameters := [];
              Symbol.dimensions := [];
              Symbol.elements := [] |} self
       else self)
    self ids.

(** One iteration of the INTEGER and FLOATING loops. *)
Definition declare_number (text : string) (m : Re.rematch)
    (self : CORAL66Parser) : pyres CORAL66Parser :=
  g1 ← attr (Re.group m 1);
  let type_name := Str.upper g1 in
  id_list ← attr (Re.group m 2);
  let ids := split_strip "," id_list in
  Ok (declare_ids text m type_name (type_name +:+ " variable") ids self).

(** One iteration of the FIXED loop. *)
Definition declare_fixed (text : string) (m : Re.rematch)
    (self : CORAL66Parser) : pyres CORAL66Parser :=
  let totalbits := Str.fmt (Re.group m 2) in
  let fractionbits := Str.fmt (Re.group m 3) in
  let type_name := "FIXED(" +:+ totalbits +:+ "," +:+ fractionbits +:+ ")" in
  id_list ← attr (Re.group m 4);
  let ids := split_strip "," id_list in
  Ok (declare_ids text m type_name
        ("Fixed-point variable: " +:+ totalbits +:+ " total bits, "
           +:+ fractionbits +:+ " fraction bits") ids self).

Definition _parse_number_declarations (text : string) (self : CORAL66Parser)
  : pyres CORAL66Parser :=
  self ← for_each (Re.finditer (Pat.number "INTEGER") text)
           (declare_number text) self;
  self ← for_each (Re.finditer (Pat.number "FLOATING") text)
           (declare_number text) self;
  for_each (Re.finditer Pat.fixed text) (declare_fixed text) self.

Definition array_symbol (array_name type_name doc : string) (pos : Z * Z)
    (dimensions : string) : Symbol.t :=
  {| Symbol.name := Str.lower array_name;
     Symbol.kind := ARRAY;
     Symbol.data_type := type_name +:+ " ARRAY";
     Symbol.line := pos.1;
     Symbol.column := pos.2;
     Symbol.end_line := 0;
     Symbol.end_column := 0;
     Symbol.scope := "global";
     Symbol.documentation := doc;
     Symbol.parameters := [];
     Symbol.dimensions := split_strip "," dimensions;
     Symbol.elements := [] |}.

Definition declare_array (text : string) (m : Re.rematch)
    (self : CORAL66Parser) : pyres CORAL66Parser :=
  g1 ← attr (Re.group m 1);
  let type_name := Str.upper g1 in
  let array_name := Re.group m 2 in
  let dimensions := Re.group m 3 in
  let pos := _find_position text (Re.start m) in
  name ← attr array_name;
  dims ← attr dimensions;
  Ok (set_symbol (Str.lower name)
        (array_symbol name type_name
           (type_name +:+ " array with dimensions [" +:+ dims +:+ "]")
           pos dims) self).

Definition declare_fixed_array (text : string) (m : Re.rematch)
    (self : CORAL66Parser) : pyres CORAL66Parser :=
  let totalbits := Str.fmt (Re.group m 2) in
  let fractionbits := Str.fmt (Re.group m 3) in
  let array_name := Re.group m 4 in
  let dimensions := Re.group m 5 in
  let type_name := "FIXED(" +:+ totalbits +:+ "," +:+ fractionbits +:+ ")" in
  let pos := _find_position text (Re.start m) in
  name ← attr array_name;
  dims ← attr dimensions;
  Ok (set_symbol (Str.lower name)
        (array_symbol name type_name
           ("Fixed-point array [" +:+ dims +:+ "]: " +:+ totalbits
              +:+ " bits, " +:+ fractionbits +:+ " fraction bits")
           pos dims) self).

Definition _parse_array_declarations (text : string) (self : CORAL66Parser)
  : pyres CORAL66Parser :=
  self ← for_each (Re.finditer Pat.array text) (declare_array text) self;
  for_each (Re.finditer Pat.fixed_array text) (declare_fixed_array text) self.

(** One iteration of the element loop of a table: the element list built so
    far travels with the parser. *)
Definition declare_element (text : string) (m : Re.rematch)
    (table_name elements_text : string) (elem_match : Re.rematch)
    (acc : list string * CORAL66Parser) : pyres (list string * CORAL66Parser) :=
  let '(elements, self) := acc in
  elem_name ← attr (Re.group elem_match 1);
  let elem_type := Re.group elem_match 2 in
  let elements := (elements ++ [Str.lower elem_name])%list in
  let '(elem_line, elem_col) :=
    _find_position text
      (Re.start m + Str.find (Re.group0 elem_match) elements_text) in
  elem_type ← attr elem_type;
  Ok (elements,
      set_symbol (Str.lower table_name +:+ "." +:+ Str.lower elem_name)
        {| Symbol.name := Str.lower elem_name;
           Symbol.kind := ELEMENT;
           Symbol.data_type := Str.upper elem_type;
           Symbol.line := elem_line;
           Symbol.column := elem_col;
           Symbol.end_line := 0;
           Symbol.end_column := 0;
           Symbol.scope := Str.lower table_name;
           Symbol.documentation := "Element of TABLE " +:+ table_name;
           Symbol.parameters := [];
           Symbol.dimensions := [];
           Symbol.elements := [] |} self).

Definition declare_table (text : string) (m : Re.rematch)
    (self : CORAL66Parser) : pyres CORAL66Parser :=
  let table_name := Re.group m 1 in
  let width := Str.fmt (Re.group m 2) in
  let length := Str.fmt (Re.group m 3) in
  let '(line, col) := _find_position text (Re.start m) in
  elements_text ← arg (Re.group m 4);
  table_name ← attr table_name;
  '(elements, self) ←
    for_each (Re.finditer Pat.element elements_text)
      (declare_element text m table_name elements_text) ([], self);
  Ok (set_symbol (Str.lower table_name)
        {| Symbol.name := Str.lower table_name;
           Symbol.kind := TABLE;
           Symbol.data_type := "TABLE[" +:+ width +:+ "," +:+ length +:+ "]";
           Symbol.line := line;
           Symbol.column := col;
           Symbol.end_line := 0;
           Symbol.end_column := 0;
           Symbol.scope := "global";
           Symbol.documentation :=
             "Table with width " +:+ width +:+ ", length " +:+ length;
           Symbol.parameters := [];
           Symbol.dimensions := [];
           Symbol.elements := elements |} self).

Definition _parse_table_declarations (text : string) (self : CORAL66Parser)
  : pyres CORAL66Parser :=
  for_each (Re.finditer Pat.table text) (declare_table text) self.

Definition parameter_symbol (proc_name param_name : string) (line col : Z)
  : Symbol.t :=
  {| Symbol.name := Str.lower param_name;
     Symbol.kind := PARAMETER;
     Symbol.data_type := "parameter";
     Symbol.line := line;
     Symbol.column := col;
     Symbol.end_line := 0;
     Symbol.end_column := 0;
     Symbol.scope := Str.lower proc_name;
     Symbol.documentation := "Parameter of " +:+ proc_name;
     Symbol.parameters := [];
     Symbol.dimensions := [];
     Symbol.elements := [] |}.

(** One iteration of [for part in param_parts]: the parameter list built so
    far travels with the parser. *)
Definition declare_params (proc_name : string) (line col : Z) (part : string)
    (acc : list string * CORAL66Parser) : pyres (list string * CORAL66Parser) :=
  let '(params, self) := acc in
  let part := Str.strip part in
  if Str.is_empty part then Ok (params, self)
  else
    match Re.search Pat.param_ids part with
    | None => Ok (params, self)
    | Some id_match =>
        g1 ← attr (Re.group id_match 1);
        let ids := split_strip "," g1 in
        Ok ((params ++ ids)%list,
            foldl (λ self param_name,
                     set_symbol
                       (Str.lower proc_name +:+ "." +:+ Str.lower param_name)
                       (parameter_symbol proc_name param_name line col) self)
                  self ids)
    end.

Definition declare_procedure (text : string) (m : Re.rematch)
    (self : CORAL66Parser) : pyres CORAL66Parser :=
  let return_type := Re.group m 1 in
  let is_recursive := bool_decide (Re.group m 2 ≠ None) in
  let proc_name := Re.group m 3 in
  let params_text := Re.group m 4 in
  '(kind, type_str) ←
    (if truthy return_type
     then rt ← attr return_type; Ok (FUNCTION, Str.upper rt +:+ " PROCEDURE")
     else Ok (PROCEDURE, "PROCEDURE"));
  let type_str := if is_recursive then "RECURSIVE " +:+ type_str else type_str in
  let '(line, col) := _find_position text (Re.start m) in
  proc_name ← attr proc_name;
  '(params, self) ←
    (if truthy params_text
     then pt ← attr params_text;
          for_each (Str.split ";" pt) (declare_params proc_name line col)
                   ([], self)
     else Ok ([], self));
  doc_tail ←
    (if truthy return_type
     then rt ← attr return_type; Ok ("returns " +:+ Str.upper rt)
     else Ok "no return value");
  Ok (set_symbol (Str.lower proc_name)
        {| Symbol.name := Str.lower proc_name;
           Symbol.kind := kind;
           Symbol.data_type := type_str;
           Symbol.line := line;
           Symbol.column := col;
           Symbol.end_line := 0;
           Symbol.end_column := 0;
           Symbol.scope := "global";
           Symbol.documentation := type_str +:+ " - " +:+ doc_tail;
           Symbol.parameters := params;
           Symbol.dimensions := [];
           Symbol.elements := [] |} self).

Definition _parse_procedure_declarations (text : string)
    (self : CORAL66Parser) : pyres CORAL66Parser :=
  for_each (Re.finditer Pat.procedure text) (declare_procedure text) self.

Definition declare_switch (text : string) (m : Re.rematch)
    (self : CORAL66Parser) : pyres CORAL66Parser :=
  let switch_name := Re.group m 1 in
  labels_text ← attr (Re.group m 2);
  let labels := split_strip "," labels_text in
  let '(line, col) := _find_position text (Re.start m) in
  switch_name ← attr switch_name;
  Ok (set_symbol (Str.lower switch_name)
        {| Symbol.name := Str.lower switch_name;
           Symbol.kind := SWITCH;
           Symbol.data_type := "SWITCH";
           Symbol.line := line;
           Symbol.column := col;
           Symbol.end_line := 0;
           Symbol.end_column := 0;
           Symbol.scope := "global";
           Symbol.documentation :=
             "Switch with labels: " +:+ Str.join ", " labels;
           Symbol.parameters := [];
           Symbol.dimensions := [];
           Symbol.elements := labels |} self).

Definition _parse_switch_declarations (text : string) (self : CORAL66Parser)
  : pyres CORAL66Parser :=
  for_each (Re.finditer Pat.switch text) (declare_switch text) self.

Definition declare_overlay (text : string) (m : Re.rematch)
    (self : CORAL66Parser) : pyres CORAL66Parser :=
  let base := Re.group m 1 in
  let '(line, col) := _find_position text (Re.start m) in
  let overlay_key :=
    "overlay_" +:+ Str.of_int line +:+ "_" +:+ Str.of_int col in
  base ← attr base;
  Ok (set_symbol overlay_key
        {| Symbol.name := Str.lower base;
           Symbol.kind := OVERLAY;
           Symbol.data_type := "OVERLAY";
           Symbol.line := line;
           Symbol.column := col;
           Symbol.end_line := 0;
           Symbol.end_column := 0;
           Symbol.scope := "global";
           Symbol.documentation := "Overlay on " +:+ base;
           Symbol.parameters := [];
           Symbol.dimensions := [];
           Symbol.elements := [] |} self).

Definition _parse_overlay_declarations (text : string) (self : CORAL66Parser)
  : pyres CORAL66Parser :=
  for_each (Re.finditer Pat.overlay text) (declare_overlay text) self.

Definition label_symbol (label_name : string) (line col : Z) : Symbol.t :=
  {| Symbol.name := Str.lower label_name;
     Symbol.kind := LABEL;
     Symbol.data_type := "LABEL";
     Symbol.line := line;
     Symbol.column := col;
     Symbol.end_line := 0;
     Symbol.end_column := 0;
     Symbol.scope := "global";
     Symbol.documentation := "Label";
     Symbol.parameters := [];
     Symbol.dimensions := [];
     Symbol.elements := [] |}.

Definition declare_label (text : string) (m : Re.rematch)
    (self : CORAL66Parser) : pyres CORAL66Parser :=
  label_name ← attr (Re.group m 1);
  if is_keyword (Str.upper label_name) then Ok self
  else
    let '(line, col) := _find_position text (Re.start m) in
    match symbols self !! Str.lower label_name with
    | Some _ => Ok self
    | None =>
        Ok (set_symbol (Str.lower label_name)
              (label_symbol label_name line col) self)
    end.

Definition _parse_labels (text : string) (self : CORAL66Parser)
  : pyres CORAL66Parser :=
  for_each (Re.finditer Pat.label text) (declare_label text) self.

Definition record_reference (text : string) (m : Re.rematch)
    (self : CORAL66Parser) : pyres CORAL66Parser :=
  name ← attr (Re.group m 1);
  if is_keyword (Str.upper name) then Ok self
  else
    let '(line, col) := _find_position text (Re.start m) in
    Ok (add_reference
          {| Reference.name := Str.lower name;
             Reference.line := line;
             Reference.column := col;
             Reference.end_column := col + Str.len name;
             Reference.context := "" |} self).

Definition _parse_references (text : string) (self : CORAL66Parser)
  : pyres CORAL66Parser :=
  for_each (Re.finditer Pat.word text) (record_reference text) self.

(** [parse]: the six assignments that reset the instance, then the passes
    over the comment-free text. *)
Definition reset (text : string) (self : CORAL66Parser) : CORAL66Parser :=
  let self := Parser ∅ (references self) (diagnostics self) (lines self)
                (current_scope self) (scope_stack self) in
  let self := Parser (symbols self) [] (diagnostics self) (lines self)
                (current_scope self) (scope_stack self) in
  let self := Parser (symbols self) (references self) [] (lines self)
                (current_scope self) (scope_stack self) in
  let self := Parser (symbols self) (references self) (diagnostics self)
                (Str.split Char.LF text) (current_scope self)
                (scope_stack self) in
  let self := Parser (symbols self) (references self) (diagnostics self)
                (lines self) "global" (scope_stack self) in
  Parser (symbols self) (references self) (diagnostics self) (lines self)
    (current_scope self) ["global"].

Definition parse (text : string) (self : CORAL66Parser)
  : pyres CORAL66Parser :=
  let self := reset text self in
  let cleaned_text := _remove_comments text in
  self ← _parse_number_declarations cleaned_text self;
  self ← _parse_array_declarations cleaned_text self;
  self ← _parse_table_declarations cleaned_text self;
  self ← _parse_procedure_declarations cleaned_text self;
  self ← _parse_switch_declarations cleaned_text self;
  self ← _parse_overlay_declarations cleaned_text self;
  self ← _parse_labels cleaned_text self;
  _parse_references cleaned_text self.

Definition get_symbols (self : CORAL66Parser) : gmap string Symbol.t :=
  symbols self.
Definition get_references (self : CORAL66Parser) : list Reference.t :=
  references self.
Definition get_diagnostics (self : CORAL66Parser) : list Diagnostic.t :=
  diagnostics self.

(** ** The position queries *)

(** [l[i]] for a Python integer index: negative indices count from the end. *)
Definition list_index {A : Type} (l : list A) (i : Z) : pyres A :=
  let n := Z.of_nat (length l) in
  let j := if i <? 0 then n + i else i in
  if j <? 0 then Raise IndexError
  else match l !! Z.to_nat j with
       | Some x => Ok x
       | None => Raise IndexError
       end.

(** The first word of the line whose span holds the column:
    [for match in re.finditer(...): if match.start() <= column <= match.end()] *)
Definition word_at (line_text : string) (column : Z) : option Re.rematch :=
  List.find (λ m, (Re.start m <=? column) && (column <=? Re.end_ m))
    (Re.finditer Pat.word line_text).

Definition NL : string := String Char.LF "".

Record Hover : Type := { contents : string }.

Definition get_hover (self : CORAL66Parser) (line column : Z)
  : pyres (option Hover) :=
  if Z.of_nat (length (lines self)) <=? line then Ok None
  else
    line_text ← list_index (lines self) line;
    match word_at line_text column with
    | None => Ok None
    | Some word_match =>
        word ← attr (Re.group word_match 1);
        if is_keyword (Str.upper word) then
          Ok (Some {| contents :=
                        "**" +:+ Str.upper word +:+ "**" +:+ NL +:+ NL
                          +:+ "CORAL 66 keyword" |})
        else
          match symbols self !! Str.lower word with
          | Some sym =>
              Ok (Some {| contents :=
                            "**" +:+ Symbol.name sym +:+ "**: "
                              +:+ Symbol.data_type sym +:+ NL +:+ NL
                              +:+ Symbol.documentation sym |})
          | None => Ok None
          end
    end.

Module Definition_.
Record t : Type := Make { line : Z; column : Z; name : string }.
End Definition_.

Definition get_definition (self : CORAL66Parser) (line column : Z)
  : pyres (option Definition_.t) :=
  if Z.of_nat (length (lines self)) <=? line then Ok None
  else
    line_text ← list_index (lines self) line;
    match word_at line_text column with
    | None => Ok None
    | Some m =>
        g1 ← attr (Re.group m 1);
        let word := Str.lower g1 in
        match symbols self !! word with
        | Some sym =>
            Ok (Some (Definition_.Make (Symbol.line sym) (Symbol.column sym)
                        (Symbol.name sym)))
        | None => Ok None
        end
    end.

Module Location.
Record t : Type := Make { line : Z; column : Z; end_column : Z }.
End Location.

Definition location_of (ref : Reference.t) : Location.t :=
  Location.Make (Reference.line ref) (Reference.column ref)
    (Reference.end_column ref).

Definition get_references_at (self : CORAL66Parser) (line column : Z)
  : pyres (list Location.t) :=
  if Z.of_nat (length (lines self)) <=? line then Ok []
  else
    line_text ← list_index (lines self) line;
    target_word ←
      match word_at line_text column with
      | None => Ok None
      | Some m => g1 ← attr (Re.group m 1); Ok (Some (Str.lower g1))
      end;
    match target_word with
    | None => Ok []
    | Some target_word =>
        if Str.is_empty target_word then Ok []
        else
          Ok (map location_of
                (List.filter
                   (λ ref, String.eqb (Reference.name ref) target_word)
                   (references self)))
    end.

(** ** Relations between states of the parser, for its invariants *)

(** What none of the passes touches: the diagnostics and the lines. *)
Definition keeps (s s' : CORAL66Parser) : Prop :=
  diagnostics s' = diagnostics s ∧ lines s' = lines s.

(** [keeps] for a loop that carries a list next to the parser. *)
Definition keeps2 {B : Type} (a a' : B * CORAL66Parser) : Prop :=
  keeps a.2 a'.2.

(** What the label pass keeps: every entry of the symbol table. *)
Definition grows (s s' : CORAL66Parser) : Prop := symbols s ⊆ symbols s'.

(** ** Analysing a document

    The server builds a document's snapshot with a new instance,
    [parser = CORAL66Parser(); parser.parse(text)] in [_update_document]. *)

Definition analyse (text : string) : pyres CORAL66Parser :=
  parse text __init__.

(** The snapshot itself; [analyse] never raises (lemma [analyse_snapshot]). *)
Definition snapshot (text : string) : CORAL66Parser :=
  match analyse text with
  | Ok self => self
  | Raise _ => __init__
  end.

(** The lower-cased identifier under a position of an existing line, as the
    three queries find it: the first word of the line whose span holds the
    column. *)
Definition target_word (self : CORAL66Parser) (line column : Z)
  : pyres (option string) :=
  line_text ← list_index (lines self) line;
  match word_at line_text column with
  | None => Ok None
  | Some m => g1 ← attr (Re.group m 1); Ok (Some (Str.lower g1))
  end.

Definition definition_of (sym : Symbol.t) : Definition_.t :=
  Definition_.Make (Symbol.line sym) (Symbol.column sym) (Symbol.name sym).


(** A text given line by line. *)
Definition unlines (l : list string) : string := Str.join NL l.

Module Docs.

(** An outer [n] and an [n] declared again inside a procedure body. *)
Definition shadowing : string :=
  unlines [ "INTEGER n;";
            "PROCEDURE p;";
            "BEGIN";
            "  FLOATING n;";
            "  n := 1";
            "END;";
            "n := 2" ].

(** A declaration behind a comment on its line. *)
Definition after_comment : string := "COMMENT note; INTEGER x;".

(** A global [x] and a parameter [x] of procedure [p]. *)
Definition parameter : string :=
  unlines [ "INTEGER x;";
            "PROCEDURE p(VALUE INTEGER: x);";
            "BEGIN";
            "  x := 1";
            "END;";
            "x := 2" ].

(** The same name declared twice at the top level. *)
Definition duplicate : string :=
  unlines [ "INTEGER x;";
            "INTEGER x;" ].


(** A label [x] after a declaration of [x]. *)
Definition label_after_variable : string :=
  unlines [ "INTEGER x;";
            "x: x := 1" ].

End Docs.

(** The span of a match lies in the subject, and [m.group(0)] is the text
    of the span. *)
Definition in_subject (text : list ascii) (m : Re.rematch) : Prop :=
  Re.mt_text m = text ∧
  ∃ l, drop (Re.mt_start m) text = (l ++ drop (Re.mt_end m) text)%list ∧
       Re.mt_end m = (Re.mt_start m + length l)%nat ∧
       (Re.mt_end m ≤ length text)%nat.

(** ** Well-formed entries of the snapshot *)

(** The key [_parse_overlay_declarations] builds for an overlay. *)
Definition overlay_key (line col : Z) : string :=
  "overlay_" +:+ Str.of_int line +:+ "_" +:+ Str.of_int col.

(** How an entry of the symbol table is keyed and scoped, by kind: elements
    and parameters under [scope.name], an overlay under the key of its
    position, everything else global under its own name; variables and
    labels are never keywords. *)
Definition keyed (key : string) (sym : Symbol.t) : Prop :=
  match Symbol.kind sym with
  | ELEMENT | PARAMETER =>
      key = Symbol.scope sym +:+ "." +:+ Symbol.name sym
  | OVERLAY =>
      Symbol.scope sym = "global" ∧
      key = overlay_key (Symbol.line sym) (Symbol.column sym)
  | VARIABLE | LABEL =>
      Symbol.scope sym = "global" ∧ key = Symbol.name sym ∧
      is_keyword (Str.upper (Symbol.name sym)) = false
  | ARRAY | TABLE | PROCEDURE | FUNCTION | SWITCH =>
      Symbol.scope sym = "global" ∧ key = Symbol.name sym
  end.

(** Which kinds carry which list. *)
Definition payload (sym : Symbol.t) : Prop :=
  match Symbol.kind sym with
  | PROCEDURE | FUNCTION =>
      Symbol.dimensions sym = [] ∧ Symbol.elements sym = []
  | ARRAY =>
      Symbol.parameters sym = [] ∧ Symbol.elements sym = []
  | TABLE | SWITCH =>
      Symbol.parameters sym = [] ∧ Symbol.dimensions sym = []
  | VARIABLE | LABEL | PARAMETER | ELEMENT | OVERLAY =>
      Symbol.parameters sym = [] ∧ Symbol.dimensions sym = [] ∧
      Symbol.elements sym = []
  end.

(** Where a Symbol points: a position of the text, and no end position. *)
Definition placed (sym : Symbol.t) : Prop :=
  0 ≤ Symbol.line sym ∧ 0 ≤ Symbol.column sym ∧
  Symbol.end_line sym = 0 ∧ Symbol.end_column sym = 0.

Definition entry_ok (key : string) (sym : Symbol.t) : Prop :=
  keyed key sym ∧ payload sym ∧ placed sym ∧
  Str.lower (Symbol.name sym) = Symbol.name sym.

(** A recorded occurrence: a lower-cased, non-empty name that is no keyword,
    at a position of the text, spanning as many columns as it has
    characters. *)
Definition ref_ok (ref : Reference.t) : Prop :=
  Str.lower (Reference.name ref) = Reference.name ref ∧
  Str.is_empty (Reference.name ref) = false ∧
  is_keyword (Str.upper (Reference.name ref)) = false ∧
  0 ≤ Reference.line ref ∧ 0 ≤ Reference.column ref ∧
  Reference.end_column ref
    = Reference.column ref + Str.len (Reference.name ref) ∧
  Reference.context ref = "".

(** The seven declaration passes of [parse], in its order. *)
Definition declarations (text : string) (self : CORAL66Parser)
  : pyres CORAL66Parser :=
  self ← _parse_number_declarations text self;
  self ← _parse_array_declarations text self;
  self ← _parse_table_declarations text self;
  self ← _parse_procedure_declarations text self;
  self ← _parse_switch_declarations text self;
  self ← _parse_overlay_declarations text self;
  _parse_labels text self.

(** The table of symbols holds well-formed entries only. *)
Definition table_ok (self : CORAL66Parser) : Prop :=
  map_Forall entry_ok (symbols self).

(** The two answers of [get_hover]: for a keyword, and for a Symbol. *)
Definition keyword_hover (keyword : string) : Hover :=
  {| contents := "**" +:+ keyword +:+ "**" +:+ NL +:+ NL
                   +:+ "CORAL 66 keyword" |}.

Definition symbol_hover (sym : Symbol.t) : Hover :=
  {| contents := "**" +:+ Symbol.name sym +:+ "**: "
                   +:+ Symbol.data_type sym +:+ NL +:+ NL
                   +:+ Symbol.documentation sym |}.

(** An occurrence is written at its recorded place: the line it names
    spells its name, up to case, from its column on. *)
Definition written_at (lines : list string) (ref : Reference.t) : Prop :=
  ∃ line_text,
    lines !! Z.to_nat (Reference.line ref) = Some line_text ∧
    Str.lower
      (Str.of_chars
         (take (String.length (Reference.name ref))
            (drop (Z.to_nat (Reference.column ref)) (Str.chars line_text))))
    = Reference.name ref.

(** The occurrence that [_parse_references] records for a match of the
    word pattern, if it records one. *)
Definition reference_of (text : string) (m : Re.rematch)
  : option Reference.t :=
  name ← Re.group m 1;
  if is_keyword (Str.upper name) then None
  else
    Some {| Reference.name := Str.lower name;
            Reference.line := (_find_position text (Re.start m)).1;
            Reference.column := (_find_position text (Re.start m)).2;
            Reference.end_column :=
              (_find_position text (Re.start m)).2 + Str.len name;
            Reference.context := "" |}.

(** Document order of positions, of occurrences and of locations. *)
Definition pos_before (p q : Z * Z) : Prop :=
  p.1 < q.1 ∨ (p.1 = q.1 ∧ p.2 < q.2).

Definition ref_before (r1 r2 : Reference.t) : Prop :=
  pos_before (Reference.line r1, Reference.column r1)
             (Reference.line r2, Reference.column r2).

Definition loc_before (l1 l2 : Location.t) : Prop :=
  pos_before (Location.line l1, Location.column l1)
             (Location.line l2, Location.column l2).

(** ** The language server ([coral66_lsp_server.py])

    The handlers are modelled on the parameters the protocol gives them:
    a document URI, a text, a position of integers.  In [didChange] the
    list of content changes may be missing, and so may the text of a
    change. *)

Module LSP.

Record CORAL66LanguageServer : Type := Server {
  documents : gmap string string;
  parsers : gmap string CORAL66Parser
}.

Definition _update_document (uri text : string)
    (self : CORAL66LanguageServer) : pyres CORAL66LanguageServer :=
  let self := Server (<[uri := text]> (documents self)) (parsers self) in
  let parser := __init__ in
  parser ← parse text parser;
  Ok (Server (documents self) (<[uri := parser]> (parsers self))).

Definition _handle_did_open (uri text : string)
    (self : CORAL66LanguageServer) : pyres CORAL66LanguageServer :=
  _update_document uri text self.

(** [changes = params.get('contentChanges', [])], then, if the list is not
    empty, [text = changes[0].get('text', '')]. *)
Definition _handle_did_change (uri : string)
    (contentChanges : option (list (option string)))
    (self : CORAL66LanguageServer) : pyres CORAL66LanguageServer :=
  let changes := default [] contentChanges in
  match changes with
  | [] => Ok self
  | change :: _ =>
      let text := default "" change in
      _update_document uri text self
  end.

Definition _handle_did_close (uri : string) (self : CORAL66LanguageServer)
  : CORAL66LanguageServer :=
  let self :=
    match documents self !! uri with
    | Some _ => Server (delete uri (documents self)) (parsers self)
    | None => self
    end in
  match parsers self !! uri with
  | Some _ => Server (documents self) (delete uri (parsers self))
  | None => self
  end.

Record MarkupContent : Type := { kind : string; value : string }.

Definition _handle_hover (self : CORAL66LanguageServer) (uri : string)
    (line character : Z) : pyres (option MarkupContent) :=
  match parsers self !! uri with
  | None => Ok None
  | Some parser =>
      hover ← get_hover parser line character;
      match hover with
      | Some hover =>
          Ok (Some {| kind := "markdown"; value := contents hover |})
      | None => Ok None
      end
  end.

Record Position : Type := { line : Z; character : Z }.
Record Range : Type := { start : Position; end_ : Position }.
Record Location : Type := { uri : string; range : Range }.

Definition _handle_definition (self : CORAL66LanguageServer) (uri : string)
    (line character : Z) : pyres (option Location) :=
  match parsers self !! uri with
  | None => Ok None
  | Some parser =>
      definition ← get_definition parser line character;
      match definition with
      | Some definition =>
          Ok (Some
                {| uri := uri;
                   range :=
                     {| start :=
                          {| line := Definition_.line definition;
                             character := Definition_.column definition |};
                        end_ :=
                          {| line := Definition_.line definition;
                             character :=
                               Definition_.column definition
                               + Str.len (Definition_.name definition) |}
                     |} |})
      | None => Ok None
      end
  end.

Definition lsp_ref (uri : string) (ref : Location.t) : Location :=
  {| uri := uri;
     range :=
       {| start := {| line := Location.line ref;
                      character := Location.column ref |};
          end_ := {| line := Location.line ref;
                     character := Location.end_column ref |} |} |}.

Definition _handle_references (self : CORAL66LanguageServer) (uri : string)
    (line character : Z) : pyres (list Location) :=
  match parsers self !! uri with
  | None => Ok []
  | Some parser =>
      refs ← get_references_at parser line character;
      Ok (map (lsp_ref uri) refs)
  end.

(** The constructor of the server: no document, no parser. *)
Definition __init__ : CORAL66LanguageServer := Server ∅ ∅.

(** The parser kept for a URI is the snapshot of the text kept for it. *)
Definition in_sync (self : CORAL66LanguageServer) : Prop :=
  ∀ uri, parsers self !! uri = snapshot <$> documents self !! uri.

End LSP.

(** * Properties of the embedding *)

(** ** The matcher: groups that every match binds *)

Module ReFacts.
Import Re.
Local Open Scope list_scope.

#[global] Instance caps_le_refl : Reflexive caps_le.
Proof. by intros c n. Qed.

#[global] Instance caps_le_trans : Transitive caps_le.
Proof. intros c1 c2 c3 H12 H23 n Hn. by apply H23, H12. Qed.

Lemma caps_le_insert c n se : caps_le c (<[n := se]> c).
Proof.
  intros i Hi. destruct (decide (n = i)) as [->|Hne].
  - rewrite lookup_insert_eq. by eexists.
  - by rewrite lookup_insert_ne.
Qed.

(** A successful loop of [r*] ends in a call of the continuation, at a
    state related to the first by any preorder that the body respects. *)
Lemma star_iter_sound (R : relation mstate) `{!PreOrder R} body k :
  (∀ st k' res, body st k' = Some res → ∃ st', k' st' = Some res ∧ R st st') →
  ∀ n st res, star_iter body k n st = Some res →
    ∃ st', k st' = Some res ∧ R st st'.
Proof.
  intros Hbody n. induction n as [|n IH]; intros st res Hres; simpl in Hres.
  - by exists st.
  - destruct (body st _) as [res'|] eqn:Hb.
    + injection Hres as ->.
      apply Hbody in Hb as (st1 & Hk1 & Hle1).
      destruct (m_pos st <? m_pos st1)%nat; [|done].
      apply IH in Hk1 as (st' & Hk & Hle).
      exists st'. split; [done|]. by etrans.
    + by exists st.
Qed.

#[global] Instance caps_grow_preorder : PreOrder caps_grow.
Proof.
  split; [by intros st n|].
  intros st1 st2 st3. unfold caps_grow. apply caps_le_trans.
Qed.

(** A successful match of [r] ends in a call of the continuation, at a
    state where every group that [r] binds has a span. *)
Lemma rmatch_sound r :
  ∀ st k res, rmatch r st k = Some res →
    ∃ st', k st' = Some res ∧ caps_le (m_caps st) (m_caps st') ∧
           ∀ n, binds n r = true → is_Some (m_caps st' !! n).
Proof.
  induction r as [|p|r1 IH1 r2 IH2|r1 IH1 r2 IH2|r1 IH1|g r1 IH1| |r1 IH1];
    intros st k res Hres; simpl in Hres.
  - exists st. by repeat split.
  - destruct (m_rest st) as [|c cs]; [done|].
    destruct (p c); [|done].
    exists (advance c cs st). by repeat split.
  - apply IH1 in Hres as (st1 & Hres & Hle1 & Hb1).
    apply IH2 in Hres as (st2 & Hres & Hle2 & Hb2).
    exists st2. split; [done|]. split; [by etrans|].
    intros n [Hn|Hn]%orb_prop; [apply Hle2, Hb1, Hn | apply Hb2, Hn].
  - destruct (rmatch r1 st k) as [res'|] eqn:H1.
    + injection Hres as ->.
      apply IH1 in H1 as (st' & Hk & Hle & Hb).
      exists st'. repeat split; [done..|].
      intros n [Hn _]%andb_prop. by apply Hb.
    + apply IH2 in Hres as (st' & Hk & Hle & Hb).
      exists st'. repeat split; [done..|].
      intros n [_ Hn]%andb_prop. by apply Hb.
  - apply (star_iter_sound caps_grow) in Hres as (st' & Hk & Hle).
    + exists st'. by repeat split.
    + intros st0 k' res' H'. apply IH1 in H' as (st' & ? & ? & _). eauto.
  - apply IH1 in Hres as (st1 & Hk & Hle & Hb).
    exists (capture g (m_pos st) st1). split; [done|]. split.
    + etrans; [done|]. apply caps_le_insert.
    + intros n [Hn|Hn]%orb_prop; simpl.
      * apply Nat.eqb_eq in Hn as ->. rewrite lookup_insert_eq. by eexists.
      * by apply caps_le_insert, Hb.
  - destruct (at_boundary st); [|done]. exists st. by repeat split.
  - destruct (rmatch r1 st Some); [done|]. exists st. by repeat split.
Qed.

Lemma consumed_refl st : consumed 0 st st.
Proof. exists []. repeat split; simpl; lia. Qed.

Lemma consumed_trans a b st1 st2 st3 :
  consumed a st1 st2 → consumed b st2 st3 → consumed (a + b) st1 st3.
Proof.
  intros (l1 & Hr1 & Hp1 & Hn1) (l2 & Hr2 & Hp2 & Hn2).
  exists (l1 ++ l2). rewrite length_app, <- app_assoc, <- Hr2.
  repeat split; [done|lia..].
Qed.

Lemma consumed_weaken a b st st' :
  (b ≤ a)%nat → consumed a st st' → consumed b st st'.
Proof. intros Hab (l & ? & ? & ?). exists l. repeat split; [done..|lia]. Qed.

#[global] Instance consumed_preorder : PreOrder (consumed 0).
Proof.
  split; [exact consumed_refl|].
  intros st1 st2 st3 H12 H23. apply (consumed_trans 0 0 _ _ _ H12 H23).
Qed.

(** The continuation of a successful match of [r] runs at a state
    further on in the subject by the characters [r] matched. *)
Lemma rmatch_consumes r :
  ∀ st k res, rmatch r st k = Some res →
    ∃ st', k st' = Some res ∧ consumed (min_len r) st st'.
Proof.
  induction r as [|p|r1 IH1 r2 IH2|r1 IH1 r2 IH2|r1 IH1|g r1 IH1| |r1 IH1];
    intros st k res Hres; simpl in Hres.
  - exists st. split; [done|apply consumed_refl].
  - destruct (m_rest st) as [|c cs] eqn:Hrest; [done|].
    destruct (p c); [|done].
    exists (advance c cs st). split; [done|].
    exists [c]. simpl. repeat split; [done|lia..].
  - apply IH1 in Hres as (st1 & Hres & H1).
    apply IH2 in Hres as (st2 & Hres & H2).
    exists st2. split; [done|]. by eapply consumed_trans.
  - destruct (rmatch r1 st k) as [res'|] eqn:H1.
    + injection Hres as ->. apply IH1 in H1 as (st' & Hk & H1).
      exists st'. split; [done|]. eapply consumed_weaken; [|done]. simpl. lia.
    + apply IH2 in Hres as (st' & Hk & H2).
      exists st'. split; [done|]. eapply consumed_weaken; [|done]. simpl. lia.
  - apply (star_iter_sound (consumed 0)) in Hres; [done|].
    intros st0 k' res' H'. apply IH1 in H' as (st' & ? & ?).
    exists st'. split; [done|]. eapply consumed_weaken; [|done]. lia.
  - apply IH1 in Hres as (st1 & Hk & H1).
    exists (capture g (m_pos st) st1). by split.
  - destruct (at_boundary st); [|done].
    exists st. split; [done|apply consumed_refl].
  - destruct (rmatch r1 st Some); [done|].
    exists st. split; [done|apply consumed_refl].
Qed.

(** The matcher only looks at its continuation further on in the
    subject. *)
Lemma star_iter_ext body k1 k2 :
  (∀ st k k', (∀ st', consumed 0 st st' → k st' = k' st') →
              body st k = body st k') →
  ∀ n st, (∀ st', consumed 0 st st' → k1 st' = k2 st') →
    star_iter body k1 n st = star_iter body k2 n st.
Proof.
  intros Hbody n. induction n as [|n IH]; intros st Hk; simpl.
  - apply Hk, consumed_refl.
  - rewrite (Hk st) by apply consumed_refl.
    erewrite Hbody; [done|]. intros st1 H1; simpl.
    destruct (m_pos st <? m_pos st1)%nat; [|done].
    apply IH. intros st' H'. apply Hk. by etrans.
Qed.

Lemma rmatch_ext r :
  ∀ st k k', (∀ st', consumed 0 st st' → k st' = k' st') →
    rmatch r st k = rmatch r st k'.
Proof.
  induction r as [|p|r1 IH1 r2 IH2|r1 IH1 r2 IH2|r1 IH1|g r1 IH1| |r1 IH1];
    intros st k k' Hk; simpl.
  - apply Hk, consumed_refl.
  - destruct (m_rest st) as [|c cs] eqn:Hrest; [done|].
    destruct (p c); [|done]. apply Hk.
    exists [c]. simpl. repeat split; [done|lia..].
  - apply IH1. intros st1 H1. apply IH2. intros st2 H2.
    apply Hk. by etrans.
  - by rewrite (IH1 st k k'), (IH2 st k k').
  - by apply star_iter_ext.
  - apply IH1. intros st1 (l & ? & ? & ?). apply Hk. by exists l.
  - destruct (at_boundary st); [|done]. apply Hk, consumed_refl.
  - destruct (rmatch r1 st Some); [done|]. apply Hk, consumed_refl.
Qed.

Lemma rmatch_fail r st : rmatch r st (λ _, None) = None.
Proof.
  destruct (rmatch r st _) as [res|] eqn:H; [|done].
  by apply rmatch_consumes in H as (st' & ? & _).
Qed.

(** Fuel beyond the length of the remaining subject changes nothing: the
    bound on the loop of [r*] never cuts a match short. *)
Lemma star_iter_fuel_S r k n :
  ∀ st, (length (m_rest st) ≤ n)%nat →
    star_iter (rmatch r) k (S n) st = star_iter (rmatch r) k n st.
Proof.
  induction n as [|n IH]; intros st Hn.
  - simpl. rewrite (rmatch_ext r st _ (λ _, None)).
    + by rewrite rmatch_fail.
    + intros st' (l & Hr & Hp & _).
      destruct l; [|rewrite Hr in Hn; simpl in Hn; lia].
      destruct (Nat.ltb_spec (m_pos st) (m_pos st')); [simpl in Hp; lia|done].
  - change (star_iter (rmatch r) k (S (S n)) st) with
      (match rmatch r st (λ st1, if (m_pos st <? m_pos st1)%nat
                                 then star_iter (rmatch r) k (S n) st1
                                 else None) with
       | Some res => Some res
       | None => k st
       end).
    change (star_iter (rmatch r) k (S n) st) with
      (match rmatch r st (λ st1, if (m_pos st <? m_pos st1)%nat
                                 then star_iter (rmatch r) k n st1
                                 else None) with
       | Some res => Some res
       | None => k st
       end).
    erewrite rmatch_ext; [done|]. intros st' (l & Hr & Hp & _); simpl.
    destruct (Nat.ltb_spec (m_pos st) (m_pos st')); [|done].
    apply IH. rewrite Hr, length_app in Hn. lia.
Qed.

Lemma star_fuel_adequate r k n st :
  (length (m_rest st) ≤ n)%nat →
  star_iter (rmatch r) k n st = rmatch (Star r) st k.
Proof.
  simpl. induction 1 as [|n Hn IH]; [done|].
  by rewrite star_iter_fuel_S.
Qed.

(** A match of the word pattern: group 1 spans the matched characters,
    of which there is at least one. *)
Lemma word_span st res :
  rmatch Pat.word st Some = Some res →
  ∃ l, l ≠ [] ∧ m_rest st = l ++ m_rest res ∧
       m_caps res !! 1%nat = Some (m_pos st, (m_pos st + length l)%nat).
Proof.
  intros H. cbn [Pat.word Cat foldr rmatch] in H.
  destruct (at_boundary st); [|done].
  apply rmatch_consumes in H as (st1 & Hk & l & Hr & Hp & Hl).
  destruct (at_boundary _); [|done]. injection Hk as <-.
  exists l. split; [by destruct l; [simpl in Hl; lia|]|].
  split; [done|]. simpl. by rewrite lookup_insert_eq, Hp.
Qed.

Lemma slice_app_drop text pos l rest :
  drop pos text = l ++ rest →
  Str.slice pos (pos + length l) text = Str.of_chars l.
Proof.
  intros Hd. unfold Str.slice. rewrite Hd.
  replace (pos + length l - pos)%nat with (length l) by lia.
  by rewrite take_app_length.
Qed.

Lemma scan_word_groups text :
  ∀ rest pos prev skip, drop pos text = rest →
    Forall (λ m, ∃ g, group m 1 = Some g ∧ Str.is_empty g = false)
      (scan Pat.word text pos prev rest skip).
Proof.
  assert (Hone : ∀ pos prev rest st,
    drop pos text = rest →
    rmatch Pat.word (MState pos prev rest ∅) Some = Some st →
    ∃ g, group (ReMatch text pos (m_pos st) (m_caps st)) 1 = Some g
         ∧ Str.is_empty g = false).
  { intros pos prev rest st Hd Hm.
    apply word_span in Hm as (l & Hl & Hr & Hc); simpl in Hr, Hc.
    unfold group; simpl. rewrite Hc; simpl.
    erewrite slice_app_drop; [|by rewrite Hd, Hr].
    eexists. split; [done|]. by destruct l. }
  intros rest. induction rest as [|c cs IH]; intros pos prev skip Hd.
  - destruct skip; cbn [scan]; [|done].
    destruct (rmatch _ _ _) as [st|] eqn:Hm; [|done].
    constructor; [|done]. by eapply Hone.
  - assert (drop (S pos) text = cs) as Hd'.
    { replace (S pos) with (pos + 1)%nat by lia.
      by rewrite <- drop_drop, Hd. }
    destruct skip; cbn [scan]; [|by apply IH].
    destruct (rmatch _ _ _) as [st|] eqn:Hm; [|by apply IH].
    constructor; [by eapply Hone|by apply IH].
Qed.

Lemma finditer_word_groups s :
  Forall (λ m, ∃ g, group m 1 = Some g ∧ Str.is_empty g = false)
    (finditer Pat.word s).
Proof. by apply scan_word_groups. Qed.

(** Every match object of a scan has the groups that the pattern binds. *)
Lemma scan_binds r n text :
  binds n r = true →
  ∀ rest pos prev skip,
    Forall (λ m, is_Some (group m n)) (scan r text pos prev rest skip).
Proof.
  intros Hb rest. induction rest as [|c cs IH]; intros pos prev skip.
  - destruct skip; simpl; [|done].
    destruct (rmatch _ _ _) as [st|] eqn:Hm; [|done].
    apply rmatch_sound in Hm as (st' & [= ->] & _ & Hall).
    constructor; [|done]. unfold group; simpl.
    apply fmap_is_Some, Hall, Hb.
  - destruct skip; simpl; [|apply IH].
    destruct (rmatch _ _ _) as [st|] eqn:Hm; [|apply IH].
    apply rmatch_sound in Hm as (st' & [= ->] & _ & Hall).
    constructor; [|apply IH]. unfold group; simpl.
    apply fmap_is_Some, Hall, Hb.
Qed.

Lemma finditer_binds r n s :
  binds n r = true → Forall (λ m, is_Some (group m n)) (finditer r s).
Proof. intros Hb. by apply scan_binds. Qed.

Lemma search_binds r n s m :
  binds n r = true → search r s = Some m → is_Some (group m n).
Proof.
  intros Hb Hs. pose proof (finditer_binds r n s Hb) as Hall.
  unfold search in Hs. destruct (finditer r s) as [|m' ms]; [done|].
  injection Hs as ->. by inversion Hall.
Qed.

End ReFacts.

(** ** Loops that never raise *)

Lemma bind_Ok {A B : Type} (a : A) (f : A → pyres B) : (Ok a ≫= f) = f a.
Proof. done. Qed.

Section ForEach.
Context {A S : Type} (R : relation S) `{!Reflexive R} `{!Transitive R}.

(** A loop whose body succeeds on every element, keeping [R], succeeds
    and keeps [R]. *)
Lemma for_each_ok (Q : A → Prop) (body : A → S → pyres S) (l : list A) :
  (∀ x s, Q x → ∃ s', body x s = Ok s' ∧ R s s') →
  Forall Q l →
  ∀ s, ∃ s', for_each l body s = Ok s' ∧ R s s'.
Proof.
  intros Hbody Hl. induction Hl as [|x l Hx _ IH]; intros s; simpl.
  - by exists s.
  - destruct (Hbody x s Hx) as (s1 & -> & H1).
    destruct (IH s1) as (s2 & H2 & H12).
    exists s2. split; [done|]. by etrans.
Qed.
End ForEach.

#[global] Instance keeps_refl : Reflexive keeps.
Proof. by intros s. Qed.

#[global] Instance keeps_trans : Transitive keeps.
Proof. intros s1 s2 s3 [H1 H2] [H3 H4]. split; congruence. Qed.

Lemma keeps_set_symbol key sym s : keeps s (set_symbol key sym s).
Proof. done. Qed.

Lemma keeps_add_reference ref s : keeps s (add_reference ref s).
Proof. done. Qed.

Lemma keeps_foldl {A : Type} (f : CORAL66Parser → A → CORAL66Parser) l :
  (∀ s x, keeps s (f s x)) → ∀ s, keeps s (foldl f s l).
Proof.
  intros Hf. induction l as [|x l IH]; intros s; simpl; [done|].
  etrans; [apply Hf|apply IH].
Qed.

Lemma keeps_declare_ids text m type_name doc ids s :
  keeps s (declare_ids text m type_name doc ids s).
Proof.
  apply keeps_foldl. intros s' id.
  destruct (_ && _); [|done]. by destruct (_find_position _ _).
Qed.

#[global] Instance grows_refl : Reflexive grows.
Proof. intros s. unfold grows. reflexivity. Qed.

#[global] Instance grows_trans : Transitive grows.
Proof. intros s1 s2 s3. unfold grows. intros H12 H23. by etrans. Qed.

#[global] Instance keeps2_refl {B : Type} : Reflexive (@keeps2 B).
Proof. by intros a. Qed.

#[global] Instance keeps2_trans {B : Type} : Transitive (@keeps2 B).
Proof. intros a1 a2 a3. unfold keeps2. apply keeps_trans. Qed.

(** Unfold the monad at a group known to have taken part in the match. *)
Ltac have_group H :=
  let g := fresh "g" in
  let Hg := fresh "Hg" in
  destruct H as [g Hg]; rewrite ?Hg;
  cbn [attr arg mbind pyres_bind pybind].

Section Passes.
Import Re ReFacts.
Variable text : string.

Lemma declare_number_ok m s :
  is_Some (group m 1) ∧ is_Some (group m 2) →
  ∃ s', declare_number text m s = Ok s' ∧ keeps s s'.
Proof.
  intros [H1 H2]. unfold declare_number.
  have_group H1. have_group H2.
  eexists. split; [done|]. apply keeps_declare_ids.
Qed.

Lemma declare_fixed_ok m s :
  is_Some (group m 4) → ∃ s', declare_fixed text m s = Ok s' ∧ keeps s s'.
Proof.
  intros H4. unfold declare_fixed. have_group H4.
  eexists. split; [done|]. apply keeps_declare_ids.
Qed.

Lemma _parse_number_declarations_ok s :
  ∃ s', _parse_number_declarations text s = Ok s' ∧ keeps s s'.
Proof.
  unfold _parse_number_declarations.
  destruct (for_each_ok keeps _ (declare_number text)
              (finditer (Pat.number "INTEGER") text) declare_number_ok) with s
    as (s1 & -> & K1).
  { apply Forall_and; split; by apply finditer_binds. }
  rewrite bind_Ok.
  destruct (for_each_ok keeps _ (declare_number text)
              (finditer (Pat.number "FLOATING") text) declare_number_ok) with s1
    as (s2 & -> & K2).
  { apply Forall_and; split; by apply finditer_binds. }
  rewrite bind_Ok.
  destruct (for_each_ok keeps _ (declare_fixed text)
              (finditer Pat.fixed text) declare_fixed_ok) with s2
    as (s3 & -> & K3).
  { by apply finditer_binds. }
  exists s3. split; [done|]. by do 2 (etrans; [done|]).
Qed.

Lemma declare_array_ok m s :
  is_Some (group m 1) ∧ is_Some (group m 2) ∧ is_Some (group m 3) →
  ∃ s', declare_array text m s = Ok s' ∧ keeps s s'.
Proof.
  intros (H1 & H2 & H3). unfold declare_array.
  have_group H1. have_group H2. have_group H3. by eexists.
Qed.

Lemma declare_fixed_array_ok m s :
  is_Some (group m 4) ∧ is_Some (group m 5) →
  ∃ s', declare_fixed_array text m s = Ok s' ∧ keeps s s'.
Proof.
  intros (H4 & H5). unfold declare_fixed_array.
  have_group H4. have_group H5. by eexists.
Qed.

Lemma _parse_array_declarations_ok s :
  ∃ s', _parse_array_declarations text s = Ok s' ∧ keeps s s'.
Proof.
  unfold _parse_array_declarations.
  destruct (for_each_ok keeps _ (declare_array text)
              (finditer Pat.array text) declare_array_ok) with s
    as (s1 & -> & K1).
  { repeat (apply Forall_and; split); by apply finditer_binds. }
  rewrite bind_Ok.
  destruct (for_each_ok keeps _ (declare_fixed_array text)
              (finditer Pat.fixed_array text) declare_fixed_array_ok) with s1
    as (s2 & -> & K2).
  { apply Forall_and; split; by apply finditer_binds. }
  exists s2. split; [done|]. by etrans.
Qed.

Lemma declare_element_ok m table_name elements_text em acc :
  is_Some (group em 1) ∧ is_Some (group em 2) →
  ∃ acc', declare_element text m table_name elements_text em acc = Ok acc'
          ∧ keeps2 acc acc'.
Proof.
  intros (H1 & H2). unfold declare_element. destruct acc as [els s].
  have_group H1. destruct (_find_position _ _) as [l c].
  have_group H2. by eexists.
Qed.

Lemma declare_table_ok m s :
  is_Some (group m 1) ∧ is_Some (group m 4) →
  ∃ s', declare_table text m s = Ok s' ∧ keeps s s'.
Proof.
  intros (H1 & H4). unfold declare_table.
  destruct (_find_position _ _) as [l c].
  have_group H4. have_group H1.
  destruct (for_each_ok keeps2 _ (declare_element text m g0 g)
              (finditer Pat.element g)
              (declare_element_ok m g0 g)) with ([] : list string, s)
    as ([els s1] & -> & K1).
  { apply Forall_and; split; by apply finditer_binds. }
  rewrite bind_Ok. eexists. split; [done|].
  etrans; [exact K1|]. apply keeps_set_symbol.
Qed.

Lemma _parse_table_declarations_ok s :
  ∃ s', _parse_table_declarations text s = Ok s' ∧ keeps s s'.
Proof.
  apply (for_each_ok keeps _ _ _ declare_table_ok).
  apply Forall_and; split; by apply finditer_binds.
Qed.

Lemma declare_params_ok proc_name line col part acc :
  ∃ acc', declare_params proc_name line col part acc = Ok acc'
          ∧ keeps2 acc acc'.
Proof.
  unfold declare_params. destruct acc as [params s].
  destruct (Str.is_empty _); [by eexists|].
  destruct (search _ _) as [im|] eqn:Hs; [|by eexists].
  apply (search_binds _ 1) in Hs; [|done]. have_group Hs.
  eexists. split; [done|]. unfold keeps2; simpl.
  by apply keeps_foldl.
Qed.

Lemma truthy_Some o : truthy o = true → is_Some o.
Proof. destruct o; [by eexists|done]. Qed.

Lemma declare_procedure_ok m s :
  is_Some (group m 3) →
  ∃ s', declare_procedure text m s = Ok s' ∧ keeps s s'.
Proof.
  intros H3. unfold declare_procedure.
  assert (∃ kt, (if truthy (group m 1)
                 then rt ← attr (group m 1);
                      Ok (FUNCTION, Str.upper rt +:+ " PROCEDURE")
                 else Ok (PROCEDURE, "PROCEDURE")) = Ok kt) as [[kd ts] ->].
  { destruct (truthy _) eqn:Ht; [|by eexists].
    apply truthy_Some in Ht as [rt ->]. by eexists. }
  rewrite bind_Ok. destruct (_find_position _ _) as [l c].
  have_group H3.
  assert (∃ ps, (if truthy (group m 4)
                 then pt ← attr (group m 4);
                      for_each (Str.split ";" pt) (declare_params g l c)
                        ([], s)
                 else Ok ([], s)) = Ok ps ∧ keeps s ps.2)
    as ([ps s1] & -> & K1).
  { destruct (truthy _) eqn:Ht; [|by eexists].
    apply truthy_Some in Ht as [pt ->]. simpl.
    apply (for_each_ok keeps2 (λ _, True)).
    - intros part acc _. apply declare_params_ok.
    - by apply Forall_true. }
  rewrite bind_Ok.
  assert (∃ dt, (if truthy (group m 1)
                 then rt ← attr (group m 1); Ok ("returns " +:+ Str.upper rt)
                 else Ok "no return value") = Ok dt) as [dt ->].
  { destruct (truthy _) eqn:Ht; [|by eexists].
    apply truthy_Some in Ht as [rt ->]. by eexists. }
  rewrite bind_Ok. eexists. split; [done|].
  etrans; [exact K1|]. apply keeps_set_symbol.
Qed.

Lemma _parse_procedure_declarations_ok s :
  ∃ s', _parse_procedure_declarations text s = Ok s' ∧ keeps s s'.
Proof.
  apply (for_each_ok keeps _ _ _ declare_procedure_ok).
  by apply finditer_binds.
Qed.

Lemma declare_switch_ok m s :
  is_Some (group m 1) ∧ is_Some (group m 2) →
  ∃ s', declare_switch text m s = Ok s' ∧ keeps s s'.
Proof.
  intros (H1 & H2). unfold declare_switch.
  have_group H2. destruct (_find_position _ _) as [l c].
  have_group H1. by eexists.
Qed.

Lemma _parse_switch_declarations_ok s :
  ∃ s', _parse_switch_declarations text s = Ok s' ∧ keeps s s'.
Proof.
  apply (for_each_ok keeps _ _ _ declare_switch_ok).
  apply Forall_and; split; by apply finditer_binds.
Qed.

Lemma declare_overlay_ok m s :
  is_Some (group m 1) →
  ∃ s', declare_overlay text m s = Ok s' ∧ keeps s s'.
Proof.
  intros H1. unfold declare_overlay.
  destruct (_find_position _ _) as [l c]. have_group H1. by eexists.
Qed.

Lemma _parse_overlay_declarations_ok s :
  ∃ s', _parse_overlay_declarations text s = Ok s' ∧ keeps s s'.
Proof.
  apply (for_each_ok keeps _ _ _ declare_overlay_ok).
  by apply finditer_binds.
Qed.

Lemma declare_label_ok m s :
  is_Some (group m 1) →
  ∃ s', declare_label text m s = Ok s' ∧ keeps s s'.
Proof.
  intros H1. unfold declare_label. have_group H1.
  destruct (is_keyword _); [by eexists|].
  destruct (_find_position _ _) as [l c].
  destruct (symbols s !! _); by eexists.
Qed.

Lemma _parse_labels_ok s :
  ∃ s', _parse_labels text s = Ok s' ∧ keeps s s'.
Proof.
  apply (for_each_ok keeps _ _ _ declare_label_ok).
  by apply finditer_binds.
Qed.

Lemma record_reference_ok m s :
  is_Some (group m 1) →
  ∃ s', record_reference text m s = Ok s' ∧ keeps s s'.
Proof.
  intros H1. unfold record_reference. have_group H1.
  destruct (is_keyword _); [by eexists|].
  destruct (_find_position _ _) as [l c]. by eexists.
Qed.

Lemma _parse_references_ok s :
  ∃ s', _parse_references text s = Ok s' ∧ keeps s s'.
Proof.
  apply (for_each_ok keeps _ _ _ record_reference_ok).
  by apply finditer_binds.
Qed.

End Passes.

(** ** The whole parse *)

(** [parse] overwrites every field before it reads any. *)
Lemma reset_fresh text s : reset text s = reset text __init__.
Proof. reflexivity. Qed.

Lemma parse_fresh text s : parse text s = parse text __init__.
Proof. unfold parse. by rewrite reset_fresh. Qed.

(** [parse] returns on every text, from every state of the instance, with
    no diagnostic and with the lines of the raw text. *)
Lemma parse_ok text s :
  ∃ s', parse text s = Ok s' ∧ diagnostics s' = [] ∧
        lines s' = Str.split Char.LF text.
Proof.
  unfold parse.
  set (s0 := reset text s). set (cleaned := _remove_comments text).
  destruct (_parse_number_declarations_ok cleaned s0) as (s1 & -> & K1).
  rewrite bind_Ok.
  destruct (_parse_array_declarations_ok cleaned s1) as (s2 & -> & K2).
  rewrite bind_Ok.
  destruct (_parse_table_declarations_ok cleaned s2) as (s3 & -> & K3).
  rewrite bind_Ok.
  destruct (_parse_procedure_declarations_ok cleaned s3) as (s4 & -> & K4).
  rewrite bind_Ok.
  destruct (_parse_switch_declarations_ok cleaned s4) as (s5 & -> & K5).
  rewrite bind_Ok.
  destruct (_parse_overlay_declarations_ok cleaned s5) as (s6 & -> & K6).
  rewrite bind_Ok.
  destruct (_parse_labels_ok cleaned s6) as (s7 & -> & K7).
  rewrite bind_Ok.
  destruct (_parse_references_ok cleaned s7) as (s8 & -> & K8).
  exists s8. split; [done|].
  assert (keeps s0 s8) as [Hd Hl] by (repeat (etrans; [eassumption|]); done).
  by rewrite Hd, Hl.
Qed.

Lemma analyse_snapshot text : analyse text = Ok (snapshot text).
Proof.
  unfold snapshot, analyse.
  by destruct (parse_ok text __init__) as (s' & -> & _).
Qed.

(** ** The position queries *)

Lemma in_range_index {A : Type} (l : list A) (i : Z) :
  0 ≤ i < Z.of_nat (length l) → ∃ x, list_index l i = Ok x.
Proof.
  intros Hi. unfold list_index.
  destruct (Z.ltb_spec i 0); [lia|]. destruct (Z.ltb_spec i 0); [lia|].
  destruct (l !! Z.to_nat i) eqn:Hl; [by eexists|].
  apply lookup_ge_None in Hl. lia.
Qed.

Lemma word_at_group line_text column m :
  word_at line_text column = Some m → is_Some (Re.group m 1).
Proof.
  intros Hw. unfold word_at in Hw. apply find_some in Hw as [Hin _].
  pose proof (ReFacts.finditer_binds Pat.word 1 line_text eq_refl) as Hall.
  rewrite Forall_forall in Hall. by apply Hall, list_elem_of_In.
Qed.

Lemma target_word_in_range self line column o :
  target_word self line column = Ok o → line < Z.of_nat (length (lines self)).
Proof.
  unfold target_word, list_index. intros H.
  destruct (Z.ltb_spec line 0); [lia|].
  destruct (Z.ltb_spec line 0); [lia|].
  destruct (lines self !! Z.to_nat line) eqn:Hl; [|done].
  apply lookup_lt_Some in Hl. lia.
Qed.

(** [get_definition] looks the word under the position up in the one table
    of symbols. *)
Lemma get_definition_target self line column w :
  target_word self line column = Ok (Some w) →
  get_definition self line column = Ok (definition_of <$> symbols self !! w).
Proof.
  intros H. pose proof (target_word_in_range _ _ _ _ H) as Hlt.
  unfold get_definition.
  destruct (Z.leb_spec (Z.of_nat (length (lines self))) line); [lia|].
  unfold target_word in H.
  destruct (list_index (lines self) line) as [line_text|]; [|done].
  cbn [mbind pyres_bind pybind] in H |- *.
  destruct (word_at line_text column) as [m|] eqn:Hw; [|done].
  apply word_at_group in Hw as [g1 Hg]. rewrite Hg in H |- *.
  cbn [attr mbind pyres_bind pybind] in H |- *.
  injection H as <-. by destruct (symbols self !! Str.lower g1).
Qed.

(** ** C1: shadowing *)




(** ** C2: positions behind a comment *)

(** C2, the code at the failing input [COMMENT note; INTEGER x;].  The
    comment is deleted, not blanked, so the text the passes see is 13
    characters shorter; the reference to [x] is recorded at column 9 and the
    Symbol at column 1, while in the raw text [x] stands at column 22 and
    its declaration at column 14.  A query at the raw position of [x]
    answers with the drifted columns. *)
Theorem C2_comment_shifts_positions :
  let text := "COMMENT note; INTEGER x;" in
  let self := snapshot text in
  analyse text = Ok self ∧
  _remove_comments text = " INTEGER x;" ∧
  Str.find "x" text = 22 ∧
  Str.find "INTEGER" text = 14 ∧
  references self = [Reference.Make "x" 0 9 10 ""] ∧
  definition_of <$> symbols self !! "x" = Some (Definition_.Make 0 1 "x") ∧
  get_references_at self 0 22 = Ok [Location.Make 0 9 10] ∧
  get_definition self 0 22 = Ok (Some (Definition_.Make 0 1 "x")).
Proof. split; [apply analyse_snapshot|]. vm_compute. by repeat split. Qed.

(** ** C3: references *)

(** C3, counterexample.  In [Docs.parameter] the table holds a global
    variable [x] and, under the key [p.x], the parameter [x] of procedure
    [p]: two Symbols of one spelling in different scopes.  The references
    of the global [x] used at line 5 include the occurrence at line 1,
    column 27, which is the parameter in the parameter list of [p], and the
    occurrence at line 3 inside the body of [p]. *)
Lemma C3_references_cross_scopes :
  let self := snapshot Docs.parameter in
  get_references_at self 5 0 =
    Ok [Location.Make 0 8 9; Location.Make 1 27 28;
        Location.Make 3 2 3; Location.Make 5 0 1] ∧
  Symbol.scope <$> symbols self !! "x" = Some "global" ∧
  Symbol.kind <$> symbols self !! "x" = Some VARIABLE ∧
  Symbol.scope <$> symbols self !! "p.x" = Some "p" ∧
  Symbol.kind <$> symbols self !! "p.x" = Some PARAMETER ∧
  Symbol.name <$> symbols self !! "p.x" = Some "x" ∧
  symbols self !! "x" ≠ symbols self !! "p.x".
Proof. vm_compute. by repeat split. Qed.

Lemma lower_is_empty g : Str.is_empty (Str.lower g) = Str.is_empty g.
Proof. by destruct g. Qed.

(** The word under a position is never the empty string. *)
Lemma target_word_nonempty self line column w :
  target_word self line column = Ok (Some w) → Str.is_empty w = false.
Proof.
  unfold target_word. intros H.
  destruct (list_index (lines self) line) as [line_text|]; [|done].
  cbn [mbind pyres_bind pybind] in H.
  destruct (word_at line_text column) as [m|] eqn:Hw; [|done].
  unfold word_at in Hw. apply find_some in Hw as [Hin _].
  pose proof (ReFacts.finditer_word_groups line_text) as Hall.
  rewrite Forall_forall in Hall.
  apply list_elem_of_In, Hall in Hin as (g & Hg & Hne).
  rewrite Hg in H. injection H as <-. by rewrite lower_is_empty.
Qed.

(** C3, amended.  The references of a position are exactly the recorded
    occurrences whose lower-cased spelling is that of the word under the
    position, in the order of the text: the binding is by spelling, whatever
    Symbol or scope an occurrence belongs to. *)
Theorem C3_references_by_spelling self line column w :
  target_word self line column = Ok (Some w) →
  get_references_at self line column =
    Ok (map location_of
          (List.filter (λ ref, String.eqb (Reference.name ref) w)
             (references self))).
Proof.
  intros H. pose proof (target_word_in_range _ _ _ _ H) as Hlt.
  pose proof (target_word_nonempty _ _ _ _ H) as Hne.
  unfold get_references_at.
  destruct (Z.leb_spec (Z.of_nat (length (lines self))) line); [lia|].
  unfold target_word in H.
  destruct (list_index (lines self) line) as [line_text|]; [|done].
  cbn [mbind pyres_bind pybind] in H |- *.
  destruct (word_at line_text column) as [m|] eqn:Hw; [|done].
  apply word_at_group in Hw as [g1 Hg]. rewrite Hg in H |- *.
  cbn [attr mbind pyres_bind pybind] in H |- *.
  injection H as <-. by rewrite Hne.
Qed.

Lemma C3_references_by_spelling_witness :
  get_references_at (snapshot Docs.parameter) 3 2 =
    Ok (map location_of
          (List.filter (λ ref, String.eqb (Reference.name ref) "x")
             (references (snapshot Docs.parameter)))).
Proof.
  apply (C3_references_by_spelling (snapshot Docs.parameter) 3 2 "x").
  vm_compute. reflexivity.
Defined.

(** ** C4: a name declared twice *)





(** ** C5: malformed input *)



(** ** C6: determinism *)

(** C6.  Two analyses of one text, run on any two instances, both return
    and leave equal symbol tables, reference lists and diagnostic lists. *)
Theorem C6_parse_deterministic text (p1 p2 : CORAL66Parser) :
  ∃ r1 r2, parse text p1 = Ok r1 ∧ parse text p2 = Ok r2 ∧
           get_symbols r1 = get_symbols r2 ∧
           get_references r1 = get_references r2 ∧
           get_diagnostics r1 = get_diagnostics r2.
Proof.
  destruct (parse_ok text p1) as (r & Hr & _).
  exists r, r. rewrite (parse_fresh text p2), <- (parse_fresh text p1).
  by repeat split.
Qed.

(** ** C7: scenario 1 *)

(** C7.  The analysis of [INTEGER count, total := 0;] stores, under [count]
    and under [total], a Symbol of that name with kind VARIABLE and type
    INTEGER. *)
Theorem C7_scenario_integer_declaration :
  ∃ self count total,
    analyse "INTEGER count, total := 0;" = Ok self ∧
    symbols self !! "count" = Some count ∧
    Symbol.name count = "count" ∧ Symbol.kind count = VARIABLE ∧
    Symbol.data_type count = "INTEGER" ∧
    symbols self !! "total" = Some total ∧
    Symbol.name total = "total" ∧ Symbol.kind total = VARIABLE ∧
    Symbol.data_type total = "INTEGER".
Proof.
  exists (snapshot "INTEGER count, total := 0;").
  do 2 eexists. split; [apply analyse_snapshot|].
  vm_compute. by repeat split.
Qed.

(** ** C8: labels never replace a Symbol *)

Lemma declare_label_grows text m s :
  is_Some (Re.group m 1) →
  ∃ s', declare_label text m s = Ok s' ∧ grows s s'.
Proof.
  intros H1. unfold declare_label. have_group H1.
  destruct (is_keyword _); [by eexists|].
  destruct (_find_position _ _) as [l c].
  destruct (symbols s !! _) eqn:Hs; [by eexists|].
  eexists. split; [done|]. by apply insert_subseteq.
Qed.

(** C8.  The label pass returns on every text, and every entry that the
    symbol table holds before it is still there, unchanged, after it: a
    label whose lower-cased name has an entry leaves that entry alone. *)
Theorem C8_labels_keep_existing_symbols text self key sym :
  symbols self !! key = Some sym →
  ∃ self', _parse_labels text self = Ok self' ∧
           symbols self' !! key = Some sym.
Proof.
  intros Hkey.
  destruct (for_each_ok grows _ (declare_label text)
              (Re.finditer Pat.label text) (declare_label_grows text)) with self
    as (self' & Hp & Hg).
  { by apply ReFacts.finditer_binds. }
  exists self'. split; [done|].
  by eapply lookup_weaken.
Qed.

Lemma C8_labels_keep_existing_symbols_witness :
  let self := set_symbol "x" (label_symbol "earlier" 7 7) __init__ in
  ∃ self', _parse_labels "x: x := 1" self = Ok self' ∧
           symbols self' !! "x" = Some (label_symbol "earlier" 7 7).
Proof.
  apply (C8_labels_keep_existing_symbols "x: x := 1"
           (set_symbol "x" (label_symbol "earlier" 7 7) __init__) "x").
  vm_compute. reflexivity.
Defined.

(** In a whole analysis: the label [x] of line 1 leaves the variable [x]
    of line 0 in the table. *)
Example label_leaves_variable :
  Symbol.kind <$> symbols (snapshot Docs.label_after_variable) !! "x"
    = Some VARIABLE.
Proof. by vm_compute. Qed.

(** ** C9: positions past the last line *)

(** C9.  At a line number not below the number of lines, [get_hover] and
    [get_definition] return [None] and [get_references_at] returns the empty
    list; none of them raises. *)
Theorem C9_queries_past_last_line self line column :
  Z.of_nat (length (lines self)) ≤ line →
  get_hover self line column = Ok None ∧
  get_definition self line column = Ok None ∧
  get_references_at self line column = Ok [].
Proof.
  intros Hge. unfold get_hover, get_definition, get_references_at.
  by destruct (Z.leb_spec (Z.of_nat (length (lines self))) line); [|lia].
Qed.

Lemma C9_queries_past_last_line_witness :
  get_hover (snapshot Docs.shadowing) 7 0 = Ok None ∧
  get_definition (snapshot Docs.shadowing) 7 0 = Ok None ∧
  get_references_at (snapshot Docs.shadowing) 7 0 = Ok [].
Proof.
  apply (C9_queries_past_last_line (snapshot Docs.shadowing) 7 0).
  vm_compute. discriminate.
Defined.

(** ** C10: a reparse starts afresh *)

(** C10.  [parse(t1)] followed by [parse(t2)] on one instance, whatever its
    state, returns and leaves the instance exactly as [parse(t2)] leaves a
    newly constructed one. *)
Theorem C10_reparse_forgets_earlier_parse (self : CORAL66Parser) t1 t2 :
  ∃ r, (self1 ← parse t1 self; parse t2 self1) = Ok r ∧
       parse t2 __init__ = Ok r.
Proof.
  destruct (parse_ok t1 self) as (self1 & -> & _). rewrite bind_Ok.
  destruct (parse_ok t2 __init__) as (r & Hr & _).
  exists r. by rewrite parse_fresh.
Qed.

(** * Further properties of the parser and of the server *)

(** ** Characters, strings and positions *)

Lemma char_upper_lower c : Char.upper (Char.lower c) = Char.upper c.
Proof. by destruct c as [[] [] [] [] [] [] [] []]. Qed.

Lemma char_lower_lower c : Char.lower (Char.lower c) = Char.lower c.
Proof. by destruct c as [[] [] [] [] [] [] [] []]. Qed.

Lemma chars_of_chars l : Str.chars (Str.of_chars l) = l.
Proof. apply list_ascii_of_string_of_list_ascii. Qed.

Lemma of_chars_chars s : Str.of_chars (Str.chars s) = s.
Proof. apply string_of_list_ascii_of_string. Qed.

Lemma upper_lower s : Str.upper (Str.lower s) = Str.upper s.
Proof.
  unfold Str.upper, Str.lower. rewrite chars_of_chars, map_map.
  f_equal. apply map_ext. exact char_upper_lower.
Qed.

Lemma lower_lower s : Str.lower (Str.lower s) = Str.lower s.
Proof.
  unfold Str.lower. rewrite chars_of_chars, map_map.
  f_equal. apply map_ext. exact char_lower_lower.
Qed.

Lemma len_chars s : Str.len s = Z.of_nat (length (Str.chars s)).
Proof.
  unfold Str.len. f_equal. induction s as [|c s IH]; simpl; congruence.
Qed.

Lemma len_lower s : Str.len (Str.lower s) = Str.len s.
Proof.
  rewrite !len_chars. unfold Str.lower.
  by rewrite chars_of_chars, length_map.
Qed.

(** [rfind] answers -1 or an offset below its stop. *)
Lemma rfind_chars_range c l : ∀ i last,
  Str.rfind_chars c i l last = last ∨
  i ≤ Str.rfind_chars c i l last < i + Z.of_nat (length l).
Proof.
  induction l as [|x l IH]; intros i last; simpl; [by left|].
  destruct (IH (i + 1) (if Char.eqb x c then i else last)) as [->|H].
  - destruct (Char.eqb x c); [right; lia|by left].
  - right. lia.
Qed.

Lemma rfind_range c stop s :
  -1 ≤ Str.rfind c stop s < Z.of_nat stop ∨ Str.rfind c stop s = -1.
Proof.
  unfold Str.rfind.
  destruct (rfind_chars_range c (take stop (Str.chars s)) 0 (-1)) as [->|H];
    [by right|left].
  rewrite length_take in H. lia.
Qed.

(** The position of an offset of the text is a line and a column, both
    counted from 0. *)
Lemma _find_position_nonneg text off :
  0 ≤ off →
  0 ≤ (_find_position text off).1 ∧ 0 ≤ (_find_position text off).2.
Proof.
  intros Hoff. unfold _find_position, Str.count; simpl. split; [lia|].
  destruct (rfind_range Char.LF (Z.to_nat off) text) as [H| ->].
  - destruct (Z.leb_spec 0 (Str.rfind Char.LF (Z.to_nat off) text)); lia.
  - done.
Qed.

(** ** Spans of the matches of a scan *)

Section Spans.
Import Re ReFacts.
Local Open Scope list_scope.

Lemma scan_in_subject r text :
  ∀ rest pos prev skip, drop pos text = rest → (pos ≤ length text)%nat →
    Forall (in_subject text) (scan r text pos prev rest skip).
Proof.
  assert (Hone : ∀ pos prev rest st,
    drop pos text = rest → (pos ≤ length text)%nat →
    rmatch r (MState pos prev rest ∅) Some = Some st →
    in_subject text (ReMatch text pos (m_pos st) (m_caps st))).
  { intros pos prev rest st Hd Hpos Hm.
    apply rmatch_consumes in Hm as (st' & [= ->] & l & Hr & Hp & _).
    simpl in Hr, Hp. split; [done|]. exists l. simpl. split_and!; [|done|].
    - by rewrite Hp, <- drop_drop, Hd, Hr, drop_app_length.
    - apply (f_equal length) in Hd.
      rewrite Hr, length_drop, length_app in Hd. lia. }
  intros rest. induction rest as [|c cs IH]; intros pos prev skip Hd Hpos.
  - destruct skip; cbn [scan]; [|done].
    destruct (rmatch _ _ _) as [st|] eqn:Hm; [|done].
    constructor; [|done]. by eapply Hone.
  - assert (drop (S pos) text = cs) as Hd'.
    { replace (S pos) with (pos + 1)%nat by lia.
      by rewrite <- drop_drop, Hd. }
    assert (S pos ≤ length text)%nat as Hpos'.
    { apply (f_equal length) in Hd. rewrite length_drop in Hd.
      simpl in Hd. lia. }
    destruct skip; cbn [scan]; [|by apply IH].
    destruct (rmatch _ _ _) as [st|] eqn:Hm; [|by apply IH].
    constructor; [by eapply Hone|by apply IH].
Qed.

Lemma finditer_in_subject r s :
  Forall (in_subject (Str.chars s)) (finditer r s).
Proof. apply scan_in_subject; [done|lia]. Qed.

Lemma starts_with_app l rest : Str.starts_with l (l ++ rest) = true.
Proof.
  induction l as [|c l IH]; simpl; [done|].
  unfold Char.eqb. by rewrite Ascii.eqb_refl.
Qed.

(** [find] finds what occurs: a substring at offset [i] is found at an
    offset from 0 to [i]. *)
Lemma find_chars_found p : ∀ l i j,
  Str.starts_with p (drop i l) = true →
  j ≤ Str.find_chars p j l ≤ j + Z.of_nat i.
Proof.
  induction l as [|x l IH]; intros i j Hs.
  - rewrite drop_nil in Hs. simpl. rewrite Hs. lia.
  - cbn [Str.find_chars]. destruct (Str.starts_with p (x :: l)) eqn:H0; [lia|].
    destruct i as [|i]; [by rewrite drop_0, H0 in Hs|].
    specialize (IH i (j + 1) Hs). lia.
Qed.

(** The text of a match is found in the subject of the match. *)
Lemma find_group0 s m :
  in_subject (Str.chars s) m → 0 ≤ Str.find (group0 m) s.
Proof.
  intros (Ht & l & Hd & He & _). unfold Str.find, group0.
  rewrite Ht, He. unfold Str.slice.
  replace (mt_start m + length l - mt_start m)%nat with (length l) by lia.
  rewrite Hd, take_app_length, chars_of_chars.
  pose proof (find_chars_found l (Str.chars s) (mt_start m) 0) as H.
  rewrite Hd in H. specialize (H (starts_with_app _ _)). lia.
Qed.

End Spans.

(** ** The declaration passes store well-formed entries only *)

Lemma start_nonneg m : 0 ≤ Re.start m.
Proof. unfold Re.start. lia. Qed.

Ltac entry_ok_tac :=
  unfold entry_ok, keyed, payload, placed;
  cbn -[Str.upper Str.lower Str.of_int Str.find Str.len is_keyword
        _find_position Z.add Z.le String.app] in *;
  rewrite ?lower_lower, ?upper_lower; split_and!; auto.

Section Declarations.
Import Re ReFacts.

(** [R] is any preorder on the states of the parser that holds from a state
    to the state with one more well-formed entry. *)
Variable R : relation CORAL66Parser.
Context `{!Reflexive R} `{!Transitive R}.
Hypothesis R_set : ∀ key sym s, entry_ok key sym → R s (set_symbol key sym s).
Variable text : string.

Lemma R_foldl {A : Type} (f : CORAL66Parser → A → CORAL66Parser) l :
  (∀ s x, R s (f s x)) → ∀ s, R s (foldl f s l).
Proof.
  intros Hf. induction l as [|x l IH]; intros s; simpl; [done|].
  etrans; [apply Hf|apply IH].
Qed.

#[local] Instance R2_refl {B : Type} :
  Reflexive (λ a a' : B * CORAL66Parser, R a.2 a'.2).
Proof. by intros a. Qed.

#[local] Instance R2_trans {B : Type} :
  Transitive (λ a a' : B * CORAL66Parser, R a.2 a'.2).
Proof. intros a1 a2 a3 H12 H23. by etrans. Qed.

Lemma declare_ids_R m type_name doc ids s :
  R s (declare_ids text m type_name doc ids s).
Proof.
  unfold declare_ids. apply R_foldl. intros s' id.
  destruct (negb (Str.is_empty id)) eqn:Hne; [|done].
  destruct (is_keyword (Str.upper id)) eqn:Hkw; [done|]. cbn [negb andb].
  pose proof (_find_position_nonneg text (start m) (start_nonneg m)) as [Hl Hc].
  destruct (_find_position text (start m)) as [l c]. apply R_set.
  by entry_ok_tac.
Qed.

Lemma declare_number_R m s :
  is_Some (group m 1) ∧ is_Some (group m 2) →
  ∃ s', declare_number text m s = Ok s' ∧ R s s'.
Proof.
  intros [H1 H2]. unfold declare_number.
  have_group H1. have_group H2.
  eexists. split; [done|]. apply declare_ids_R.
Qed.

Lemma declare_fixed_R m s :
  is_Some (group m 4) → ∃ s', declare_fixed text m s = Ok s' ∧ R s s'.
Proof.
  intros H4. unfold declare_fixed. have_group H4.
  eexists. split; [done|]. apply declare_ids_R.
Qed.

Lemma _parse_number_declarations_R s :
  ∃ s', _parse_number_declarations text s = Ok s' ∧ R s s'.
Proof.
  unfold _parse_number_declarations.
  destruct (for_each_ok R _ (declare_number text)
              (finditer (Pat.number "INTEGER") text) declare_number_R) with s
    as (s1 & -> & K1).
  { apply Forall_and; split; by apply finditer_binds. }
  rewrite bind_Ok.
  destruct (for_each_ok R _ (declare_number text)
              (finditer (Pat.number "FLOATING") text) declare_number_R) with s1
    as (s2 & -> & K2).
  { apply Forall_and; split; by apply finditer_binds. }
  rewrite bind_Ok.
  destruct (for_each_ok R _ (declare_fixed text)
              (finditer Pat.fixed text) declare_fixed_R) with s2
    as (s3 & -> & K3).
  { by apply finditer_binds. }
  exists s3. split; [done|]. by do 2 (etrans; [done|]).
Qed.

Lemma declare_array_R m s :
  is_Some (group m 1) ∧ is_Some (group m 2) ∧ is_Some (group m 3) →
  ∃ s', declare_array text m s = Ok s' ∧ R s s'.
Proof.
  intros (H1 & H2 & H3). unfold declare_array.
  have_group H1. have_group H2. have_group H3.
  eexists. split; [done|]. apply R_set.
  pose proof (_find_position_nonneg text (start m) (start_nonneg m)) as [Hl Hc].
  by entry_ok_tac.
Qed.

Lemma declare_fixed_array_R m s :
  is_Some (group m 4) ∧ is_Some (group m 5) →
  ∃ s', declare_fixed_array text m s = Ok s' ∧ R s s'.
Proof.
  intros (H4 & H5). unfold declare_fixed_array.
  have_group H4. have_group H5.
  eexists. split; [done|]. apply R_set.
  pose proof (_find_position_nonneg text (start m) (start_nonneg m)) as [Hl Hc].
  by entry_ok_tac.
Qed.

Lemma _parse_array_declarations_R s :
  ∃ s', _parse_array_declarations text s = Ok s' ∧ R s s'.
Proof.
  unfold _parse_array_declarations.
  destruct (for_each_ok R _ (declare_array text)
              (finditer Pat.array text) declare_array_R) with s
    as (s1 & -> & K1).
  { repeat (apply Forall_and; split); by apply finditer_binds. }
  rewrite bind_Ok.
  destruct (for_each_ok R _ (declare_fixed_array text)
              (finditer Pat.fixed_array text) declare_fixed_array_R) with s1
    as (s2 & -> & K2).
  { apply Forall_and; split; by apply finditer_binds. }
  exists s2. split; [done|]. by etrans.
Qed.

Lemma declare_element_R m table_name elements_text em acc :
  is_Some (group em 1) ∧ is_Some (group em 2) ∧
    in_subject (Str.chars elements_text) em →
  ∃ acc', declare_element text m table_name elements_text em acc = Ok acc'
          ∧ R acc.2 acc'.2.
Proof.
  intros (H1 & H2 & Hin). unfold declare_element. destruct acc as [els s].
  have_group H1.
  pose proof (find_group0 _ _ Hin) as Hf. pose proof (start_nonneg m) as Hs.
  pose proof (_find_position_nonneg text
                (start m + Str.find (group0 em) elements_text)) as [Hl Hc];
    [lia|].
  destruct (_find_position _ _) as [l c].
  have_group H2. eexists. split; [done|]. apply R_set.
  by entry_ok_tac.
Qed.

Lemma declare_table_R m s :
  is_Some (group m 1) ∧ is_Some (group m 4) →
  ∃ s', declare_table text m s = Ok s' ∧ R s s'.
Proof.
  intros (H1 & H4). unfold declare_table.
  pose proof (_find_position_nonneg text (start m) (start_nonneg m)) as [Hl Hc].
  destruct (_find_position _ _) as [l c].
  have_group H4. have_group H1.
  destruct (for_each_ok (λ a a' : list string * CORAL66Parser, R a.2 a'.2) _
              (declare_element text m g0 g) (finditer Pat.element g)
              (declare_element_R m g0 g)) with ([] : list string, s)
    as ([els s1] & -> & K1).
  { apply Forall_and; split; [by apply finditer_binds|].
    apply Forall_and; split; [by apply finditer_binds|].
    apply finditer_in_subject. }
  rewrite bind_Ok. eexists. split; [done|].
  etrans; [exact K1|]. apply R_set. by entry_ok_tac.
Qed.

Lemma _parse_table_declarations_R s :
  ∃ s', _parse_table_declarations text s = Ok s' ∧ R s s'.
Proof.
  apply (for_each_ok R _ _ _ declare_table_R).
  apply Forall_and; split; by apply finditer_binds.
Qed.

Lemma declare_params_R proc_name line col part acc :
  0 ≤ line → 0 ≤ col →
  ∃ acc', declare_params proc_name line col part acc = Ok acc'
          ∧ R acc.2 acc'.2.
Proof.
  intros Hl Hc. unfold declare_params. destruct acc as [params s].
  destruct (Str.is_empty _); [by eexists|].
  destruct (search _ _) as [im|] eqn:Hs; [|by eexists].
  apply (search_binds _ 1) in Hs; [|done]. have_group Hs.
  eexists. split; [done|]. cbn [snd].
  apply R_foldl. intros s' x. apply R_set. by entry_ok_tac.
Qed.

Lemma declare_procedure_R m s :
  is_Some (group m 3) →
  ∃ s', declare_procedure text m s = Ok s' ∧ R s s'.
Proof.
  intros H3. unfold declare_procedure.
  assert (∃ kt, (if truthy (group m 1)
                 then rt ← attr (group m 1);
                      Ok (FUNCTION, Str.upper rt +:+ " PROCEDURE")
                 else Ok (PROCEDURE, "PROCEDURE")) = Ok kt
                ∧ (kt.1 = FUNCTION ∨ kt.1 = PROCEDURE)) as ([kd ts] & -> & Hkd).
  { destruct (truthy _) eqn:Ht; [|eexists; split; [done|by right]].
    apply truthy_Some in Ht as [rt ->]. eexists. split; [done|by left]. }
  rewrite bind_Ok.
  pose proof (_find_position_nonneg text (start m) (start_nonneg m)) as [Hl Hc].
  destruct (_find_position _ _) as [l c]. cbn [fst snd] in Hl, Hc, Hkd.
  have_group H3.
  assert (∃ ps, (if truthy (group m 4)
                 then pt ← attr (group m 4);
                      for_each (Str.split ";" pt) (declare_params g l c)
                        ([], s)
                 else Ok ([], s)) = Ok ps ∧ R s ps.2)
    as ([ps s1] & -> & K1).
  { destruct (truthy _) eqn:Ht; [|by eexists].
    apply truthy_Some in Ht as [pt ->]. cbn [attr mbind pyres_bind pybind].
    apply (for_each_ok (λ a a' : list string * CORAL66Parser, R a.2 a'.2)
             (λ _, True)).
    - intros part acc _. by apply declare_params_R.
    - by apply Forall_true. }
  rewrite bind_Ok.
  assert (∃ dt, (if truthy (group m 1)
                 then rt ← attr (group m 1); Ok ("returns " +:+ Str.upper rt)
                 else Ok "no return value") = Ok dt) as [dt ->].
  { destruct (truthy _) eqn:Ht; [|by eexists].
    apply truthy_Some in Ht as [rt ->]. by eexists. }
  rewrite bind_Ok. eexists. split; [done|].
  etrans; [exact K1|]. apply R_set.
  destruct Hkd as [-> | ->]; by entry_ok_tac.
Qed.

Lemma _parse_procedure_declarations_R s :
  ∃ s', _parse_procedure_declarations text s = Ok s' ∧ R s s'.
Proof.
  apply (for_each_ok R _ _ _ declare_procedure_R).
  by apply finditer_binds.
Qed.

Lemma declare_switch_R m s :
  is_Some (group m 1) ∧ is_Some (group m 2) →
  ∃ s', declare_switch text m s = Ok s' ∧ R s s'.
Proof.
  intros (H1 & H2). unfold declare_switch. have_group H2.
  pose proof (_find_position_nonneg text (start m) (start_nonneg m)) as [Hl Hc].
  destruct (_find_position _ _) as [l c].
  have_group H1. eexists. split; [done|]. apply R_set. by entry_ok_tac.
Qed.

Lemma _parse_switch_declarations_R s :
  ∃ s', _parse_switch_declarations text s = Ok s' ∧ R s s'.
Proof.
  apply (for_each_ok R _ _ _ declare_switch_R).
  apply Forall_and; split; by apply finditer_binds.
Qed.

Lemma declare_overlay_R m s :
  is_Some (group m 1) →
  ∃ s', declare_overlay text m s = Ok s' ∧ R s s'.
Proof.
  intros H1. unfold declare_overlay.
  pose proof (_find_position_nonneg text (start m) (start_nonneg m)) as [Hl Hc].
  destruct (_find_position _ _) as [l c]. have_group H1.
  eexists. split; [done|]. apply R_set. by entry_ok_tac.
Qed.

Lemma _parse_overlay_declarations_R s :
  ∃ s', _parse_overlay_declarations text s = Ok s' ∧ R s s'.
Proof.
  apply (for_each_ok R _ _ _ declare_overlay_R).
  by apply finditer_binds.
Qed.

Lemma declare_label_R m s :
  is_Some (group m 1) →
  ∃ s', declare_label text m s = Ok s' ∧ R s s'.
Proof.
  intros H1. unfold declare_label. have_group H1.
  destruct (is_keyword _) eqn:Hkw; [by eexists|].
  pose proof (_find_position_nonneg text (start m) (start_nonneg m)) as [Hl Hc].
  destruct (_find_position _ _) as [l c].
  destruct (symbols s !! _); [by eexists|].
  eexists. split; [done|]. apply R_set. by entry_ok_tac.
Qed.

Lemma _parse_labels_R s :
  ∃ s', _parse_labels text s = Ok s' ∧ R s s'.
Proof.
  apply (for_each_ok R _ _ _ declare_label_R).
  by apply finditer_binds.
Qed.

(** The seven declaration passes, in the order of [parse]. *)
Lemma declarations_R s :
  ∃ s', (self ← _parse_number_declarations text s;
         self ← _parse_array_declarations text self;
         self ← _parse_table_declarations text self;
         self ← _parse_procedure_declarations text self;
         self ← _parse_switch_declarations text self;
         self ← _parse_overlay_declarations text self;
         _parse_labels text self) = Ok s' ∧ R s s'.
Proof.
  destruct (_parse_number_declarations_R s) as (s1 & -> & K1).
  rewrite bind_Ok.
  destruct (_parse_array_declarations_R s1) as (s2 & -> & K2).
  rewrite bind_Ok.
  destruct (_parse_table_declarations_R s2) as (s3 & -> & K3).
  rewrite bind_Ok.
  destruct (_parse_procedure_declarations_R s3) as (s4 & -> & K4).
  rewrite bind_Ok.
  destruct (_parse_switch_declarations_R s4) as (s5 & -> & K5).
  rewrite bind_Ok.
  destruct (_parse_overlay_declarations_R s5) as (s6 & -> & K6).
  rewrite bind_Ok.
  destruct (_parse_labels_R s6) as (s7 & -> & K7).
  exists s7. split; [done|]. by repeat (etrans; [eassumption|]).
Qed.

End Declarations.

(** ** The two halves of a parse *)

(** [parse] is the declaration passes followed by the reference pass, both
    on the comment-free text. *)
Lemma parse_split text s :
  parse text s =
    (self ← declarations (_remove_comments text) (reset text s);
     _parse_references (_remove_comments text) self).
Proof.
  unfold parse, declarations.
  set (cleaned := _remove_comments text). set (s0 := reset text s).
  destruct (_parse_number_declarations cleaned s0); [|done]. rewrite !bind_Ok.
  destruct (_parse_array_declarations cleaned a); [|done]. rewrite !bind_Ok.
  destruct (_parse_table_declarations cleaned a0); [|done]. rewrite !bind_Ok.
  destruct (_parse_procedure_declarations cleaned a1); [|done].
  rewrite !bind_Ok.
  destruct (_parse_switch_declarations cleaned a2); [|done]. rewrite !bind_Ok.
  destruct (_parse_overlay_declarations cleaned a3); [|done]. rewrite !bind_Ok.
  by destruct (_parse_labels cleaned a4).
Qed.

(** The declaration passes keep a well-formed table well-formed, and leave
    the references alone. *)
Lemma declarations_table_ok text s :
  ∃ s', declarations text s = Ok s' ∧
        (table_ok s → table_ok s') ∧ references s' = references s.
Proof.
  pose (R := λ s s' : CORAL66Parser,
          (table_ok s → table_ok s') ∧ references s' = references s).
  assert (Reflexive R) by (by intros ?).
  assert (Transitive R).
  { intros s1 s2 s3 [H1 H2] [H3 H4]. split; [auto|congruence]. }
  apply (declarations_R R).
  intros key sym s0 Hok. split; [|done].
  intros Ht. by apply map_Forall_insert_2.
Qed.

(** The reference pass appends well-formed occurrences to the references and
    changes nothing else. *)
Lemma record_reference_frame text m s :
  (∃ g, Re.group m 1 = Some g ∧ Str.is_empty g = false) →
  ∃ s', record_reference text m s = Ok s' ∧
        symbols s' = symbols s ∧
        (Forall ref_ok (references s) → Forall ref_ok (references s')).
Proof.
  intros (g & Hg & Hne). unfold record_reference. rewrite Hg.
  cbn [attr mbind pyres_bind pybind].
  destruct (is_keyword _) eqn:Hkw; [by eexists|].
  pose proof (_find_position_nonneg text (Re.start m) (start_nonneg m))
    as [Hl Hc].
  destruct (_find_position _ _) as [l c]. eexists. split; [done|].
  split; [done|]. intros Hall. cbn [add_reference references].
  apply Forall_app. split; [done|]. constructor; [|done].
  unfold ref_ok; cbn [Reference.name Reference.line Reference.column
                      Reference.end_column Reference.context].
  rewrite lower_lower, upper_lower, lower_is_empty, len_lower.
  by split_and!.
Qed.

Lemma _parse_references_frame text s :
  ∃ s', _parse_references text s = Ok s' ∧
        symbols s' = symbols s ∧
        (Forall ref_ok (references s) → Forall ref_ok (references s')).
Proof.
  pose (R := λ s s' : CORAL66Parser,
          symbols s' = symbols s ∧
          (Forall ref_ok (references s) → Forall ref_ok (references s'))).
  assert (Reflexive R) by (by intros ?).
  assert (Transitive R).
  { intros s1 s2 s3 [H1 H2] [H3 H4]. split; [congruence|auto]. }
  apply (for_each_ok R _ _ _ (record_reference_frame text)).
  apply ReFacts.finditer_word_groups.
Qed.

(** The snapshot of a text, in its two halves. *)
Lemma snapshot_halves text :
  ∃ s7, declarations (_remove_comments text) (reset text __init__) = Ok s7 ∧
        _parse_references (_remove_comments text) s7 = Ok (snapshot text) ∧
        table_ok s7 ∧ references s7 = [] ∧
        symbols (snapshot text) = symbols s7 ∧
        Forall ref_ok (references (snapshot text)).
Proof.
  pose proof (analyse_snapshot text) as Ha. unfold analyse in Ha.
  rewrite parse_split in Ha.
  destruct (declarations_table_ok (_remove_comments text)
              (reset text __init__)) as (s7 & Hd & Ht & Hr).
  rewrite Hd, bind_Ok in Ha.
  destruct (_parse_references_frame (_remove_comments text) s7)
    as (s8 & Hp & Hs & Hf).
  rewrite Hp in Ha. injection Ha as <-.
  exists s7. split_and!; try done.
  - apply Ht. apply map_Forall_empty.
  - apply Hf. by rewrite Hr.
Qed.

(** ** Invariants of every snapshot *)

Lemma snapshot_table_ok text : table_ok (snapshot text).
Proof.
  destruct (snapshot_halves text) as (s7 & _ & _ & Ht & _ & Hs & _).
  unfold table_ok. by rewrite Hs.
Qed.


(** X2.  In every snapshot only procedures and functions list parameters,
    only arrays list dimensions, and only tables and switches list
    elements. *)
Theorem X2_symbol_payload_by_kind text :
  map_Forall (λ _, payload) (symbols (snapshot text)).
Proof.
  intros key sym Hs.
  by destruct (snapshot_table_ok text key sym Hs) as (_ & ? & _).
Qed.

(** X3.  Every Symbol of every snapshot is placed at a line and a column
    that are not negative, and its end line and end column are 0: the
    parser never records where a declaration ends. *)
Theorem X3_symbol_positions text :
  map_Forall (λ _, placed) (symbols (snapshot text)).
Proof.
  intros key sym Hs.
  by destruct (snapshot_table_ok text key sym Hs) as (_ & _ & ? & _).
Qed.

(** X4.  Names are stored normalised: the name of every Symbol of every
    snapshot is its own lower-case form. *)
Theorem X4_symbol_names_lower_case text :
  map_Forall (λ _ sym, Str.lower (Symbol.name sym) = Symbol.name sym)
    (symbols (snapshot text)).
Proof.
  intros key sym Hs.
  by destruct (snapshot_table_ok text key sym Hs) as (_ & _ & _ & ?).
Qed.

(** X5.  Every occurrence recorded in a snapshot has a lower-case,
    non-empty name that is not a keyword, a line and a column that are not
    negative, an end column that is the column plus the length of the
    name, and an empty context. *)
Theorem X5_references_well_formed text :
  Forall ref_ok (references (snapshot text)).
Proof. by destruct (snapshot_halves text) as (s7 & _ & _ & _ & _ & _ & ?). Qed.

(** [get_references_at] filters the recorded occurrences on the word under
    the position. *)
Lemma get_references_at_target self line column w :
  target_word self line column = Ok (Some w) →
  get_references_at self line column =
    Ok (map location_of
          (List.filter (λ ref, String.eqb (Reference.name ref) w)
             (references self))).
Proof.
  intros H. pose proof (target_word_in_range _ _ _ _ H) as Hlt.
  pose proof (target_word_nonempty _ _ _ _ H) as Hne.
  unfold get_references_at.
  destruct (Z.leb_spec (Z.of_nat (length (lines self))) line); [lia|].
  unfold target_word in H.
  destruct (list_index (lines self) line) as [line_text|]; [|done].
  cbn [mbind pyres_bind pybind] in H |- *.
  destruct (word_at line_text column) as [m|] eqn:Hw; [|done].
  apply word_at_group in Hw as [g1 Hg]. rewrite Hg in H |- *.
  cbn [attr mbind pyres_bind pybind] in H |- *.
  injection H as <-. by rewrite Hne.
Qed.

Lemma filter_none {A : Type} (f : A → bool) l :
  Forall (λ x, f x = false) l → List.filter f l = [].
Proof.
  induction 1 as [|x l Hx _ IH]; [done|]. simpl. by rewrite Hx.
Qed.

(** X6.  In a snapshot a position on a keyword has no references. *)
Theorem X6_keyword_has_no_references text line column w :
  target_word (snapshot text) line column = Ok (Some w) →
  is_keyword (Str.upper w) = true →
  get_references_at (snapshot text) line column = Ok [].
Proof.
  intros Hw Hkw. rewrite (get_references_at_target _ _ _ _ Hw).
  rewrite filter_none; [done|].
  destruct (snapshot_halves text) as (s7 & _ & _ & _ & _ & _ & Hall).
  eapply Forall_impl; [exact Hall|].
  intros ref (_ & _ & Hnk & _); cbv beta.
  destruct (String.eqb_spec (Reference.name ref) w) as [Heq|_]; [|done].
  rewrite Heq in Hnk. congruence.
Qed.

Lemma X6_keyword_has_no_references_witness :
  get_references_at (snapshot Docs.shadowing) 2 1 = Ok [].
Proof.
  apply (X6_keyword_has_no_references Docs.shadowing 2 1 "begin");
    vm_compute; reflexivity.
Defined.

(** ** The queries at the edges *)

Lemma list_index_nonneg {A : Type} (l : list A) i :
  0 ≤ i < Z.of_nat (length l) → ∃ x, list_index l i = Ok x.
Proof. apply in_range_index. Qed.

Lemma target_word_ok self line column :
  0 ≤ line < Z.of_nat (length (lines self)) →
  ∃ o, target_word self line column = Ok o.
Proof.
  intros Hl. unfold target_word.
  destruct (list_index_nonneg (lines self) line Hl) as [line_text ->].
  rewrite bind_Ok. destruct (word_at line_text column) as [m|] eqn:Hw.
  - apply word_at_group in Hw as [g ->]. by eexists.
  - by eexists.
Qed.

(** [get_hover] answers for the word under the position: a keyword first,
    else the Symbol stored under the lower-cased word. *)
Lemma get_hover_target self line column o :
  target_word self line column = Ok o →
  get_hover self line column =
    Ok (w ← o;
        if is_keyword (Str.upper w) then Some (keyword_hover (Str.upper w))
        else symbol_hover <$> symbols self !! w).
Proof.
  intros H. pose proof (target_word_in_range _ _ _ _ H) as Hlt.
  unfold get_hover.
  destruct (Z.leb_spec (Z.of_nat (length (lines self))) line); [lia|].
  unfold target_word in H.
  destruct (list_index (lines self) line) as [line_text|]; [|done].
  cbn [mbind pyres_bind pybind] in H |- *.
  destruct (word_at line_text column) as [m|] eqn:Hw.
  - apply word_at_group in Hw as [g1 Hg]. rewrite Hg in H |- *.
    cbn [attr mbind pyres_bind pybind] in H |- *.
    injection H as <-. cbn [mbind option_bind]. rewrite upper_lower.
    destruct (is_keyword _); [done|].
    by destruct (symbols self !! Str.lower g1).
  - by injection H as <-.
Qed.

Lemma get_definition_none self line column :
  target_word self line column = Ok None →
  get_definition self line column = Ok None.
Proof.
  intros H. pose proof (target_word_in_range _ _ _ _ H) as Hlt.
  unfold get_definition.
  destruct (Z.leb_spec (Z.of_nat (length (lines self))) line); [lia|].
  unfold target_word in H.
  destruct (list_index (lines self) line) as [line_text|]; [|done].
  cbn [mbind pyres_bind pybind] in H |- *.
  destruct (word_at line_text column) as [m|] eqn:Hw; [|done].
  apply word_at_group in Hw as [g1 Hg]. by rewrite Hg in H.
Qed.

Lemma get_references_at_none self line column :
  target_word self line column = Ok None →
  get_references_at self line column = Ok [].
Proof.
  intros H. pose proof (target_word_in_range _ _ _ _ H) as Hlt.
  unfold get_references_at.
  destruct (Z.leb_spec (Z.of_nat (length (lines self))) line); [lia|].
  unfold target_word in H.
  destruct (list_index (lines self) line) as [line_text|]; [|done].
  cbn [mbind pyres_bind pybind] in H |- *.
  destruct (word_at line_text column) as [m|] eqn:Hw; [|done].
  apply word_at_group in Hw as [g1 Hg]. by rewrite Hg in H.
Qed.

Lemma queries_return self line column :
  0 ≤ line →
  (∃ h, get_hover self line column = Ok h) ∧
  (∃ d, get_definition self line column = Ok d) ∧
  (∃ l, get_references_at self line column = Ok l).
Proof.
  intros Hl.
  destruct (Z.le_gt_cases (Z.of_nat (length (lines self))) line) as [Hge|Hlt].
  - unfold get_hover, get_definition, get_references_at.
    destruct (Z.leb_spec (Z.of_nat (length (lines self))) line); [|lia].
    by split_and!; eexists.
  - destruct (target_word_ok self line column) as [o Ho]; [lia|].
    rewrite (get_hover_target _ _ _ _ Ho). split; [by eexists|].
    destruct o as [w|].
    + rewrite (get_definition_target _ _ _ _ Ho),
        (get_references_at_target _ _ _ _ Ho). by split; eexists.
    + rewrite (get_definition_none _ _ _ Ho),
        (get_references_at_none _ _ _ Ho). by split; eexists.
Qed.

(** X7.  At a line number that is not negative the three position queries
    return, whatever the column and whatever the state of the parser: they
    raise nothing. *)
Theorem X7_queries_return_at_nonnegative_lines self line column :
  0 ≤ line →
  (∃ h, get_hover self line column = Ok h) ∧
  (∃ d, get_definition self line column = Ok d) ∧
  (∃ l, get_references_at self line column = Ok l).
Proof. apply queries_return. Qed.

Lemma X7_queries_return_at_nonnegative_lines_witness :
  (∃ h, get_hover (snapshot Docs.parameter) 1 27 = Ok h) ∧
  (∃ d, get_definition (snapshot Docs.parameter) 1 27 = Ok d) ∧
  (∃ l, get_references_at (snapshot Docs.parameter) 1 27 = Ok l).
Proof.
  apply (X7_queries_return_at_nonnegative_lines (snapshot Docs.parameter) 1 27).
  lia.
Defined.

(** X8.  A line number below minus the number of lines makes each of the
    three queries raise IndexError: the test [line >= len(self.lines)] lets
    it through to [self.lines[line]]. *)
Theorem X8_queries_raise_below_minus_length self line column :
  line < - Z.of_nat (length (lines self)) →
  get_hover self line column = Raise IndexError ∧
  get_definition self line column = Raise IndexError ∧
  get_references_at self line column = Raise IndexError.
Proof.
  intros Hl. unfold get_hover, get_definition, get_references_at.
  destruct (Z.leb_spec (Z.of_nat (length (lines self))) line); [lia|].
  assert (list_index (lines self) line = Raise IndexError) as ->; [|done].
  unfold list_index. destruct (Z.ltb_spec line 0); [|lia].
  by destruct (Z.ltb_spec (Z.of_nat (length (lines self)) + line) 0); [|lia].
Qed.

Lemma X8_queries_raise_below_minus_length_witness :
  get_hover (snapshot Docs.duplicate) (-3) 0 = Raise IndexError ∧
  get_definition (snapshot Docs.duplicate) (-3) 0 = Raise IndexError ∧
  get_references_at (snapshot Docs.duplicate) (-3) 0 = Raise IndexError.
Proof.
  apply (X8_queries_raise_below_minus_length (snapshot Docs.duplicate) (-3) 0).
  vm_compute. reflexivity.
Defined.

(** X9.  A negative line number within the number of lines counts from the
    end: each query answers as at that line plus the number of lines. *)
Theorem X9_negative_lines_count_from_the_end self line column :
  - Z.of_nat (length (lines self)) ≤ line < 0 →
  let line' := line + Z.of_nat (length (lines self)) in
  get_hover self line column = get_hover self line' column ∧
  get_definition self line column = get_definition self line' column ∧
  get_references_at self line column = get_references_at self line' column.
Proof.
  intros Hl line'. unfold get_hover, get_definition, get_references_at.
  destruct (Z.leb_spec (Z.of_nat (length (lines self))) line); [lia|].
  destruct (Z.leb_spec (Z.of_nat (length (lines self))) line'); [lia|].
  assert (list_index (lines self) line = list_index (lines self) line')
    as ->; [|done].
  unfold list_index, line'. destruct (Z.ltb_spec line 0); [|lia].
  destruct (Z.ltb_spec (line + Z.of_nat (length (lines self))) 0); [lia|].
  by rewrite Z.add_comm.
Qed.

Lemma X9_negative_lines_count_from_the_end_witness :
  let self := snapshot Docs.shadowing in
  get_hover self (-1) 0 = get_hover self (-1 + 7) 0 ∧
  get_definition self (-1) 0 = get_definition self (-1 + 7) 0 ∧
  get_references_at self (-1) 0 = get_references_at self (-1 + 7) 0.
Proof.
  apply (X9_negative_lines_count_from_the_end (snapshot Docs.shadowing) (-1) 0).
  vm_compute. split; [discriminate|reflexivity].
Defined.

(** X10.  On a word that upper-cases to a keyword [get_hover] answers with
    the description of the keyword, whatever the symbol table holds under
    that word. *)
Theorem X10_hover_keyword_first self line column w :
  target_word self line column = Ok (Some w) →
  is_keyword (Str.upper w) = true →
  get_hover self line column = Ok (Some (keyword_hover (Str.upper w))).
Proof.
  intros Hw Hkw. rewrite (get_hover_target _ _ _ _ Hw).
  cbn [mbind option_bind]. by rewrite Hkw.
Qed.

Lemma X10_hover_keyword_first_witness :
  let self := set_symbol "begin" (label_symbol "begin" 0 0)
                (snapshot Docs.shadowing) in
  get_hover self 2 1 = Ok (Some (keyword_hover (Str.upper "begin"))).
Proof.
  apply (X10_hover_keyword_first
           (set_symbol "begin" (label_symbol "begin" 0 0)
              (snapshot Docs.shadowing)) 2 1 "begin");
    vm_compute; reflexivity.
Defined.

(** X11.  On a word that is no keyword [get_hover] and [get_definition]
    answer from the same entry of the symbol table, the one under the
    lower-cased word: both describe that Symbol, or both return [None]. *)
Theorem X11_hover_and_definition_agree self line column w :
  target_word self line column = Ok (Some w) →
  is_keyword (Str.upper w) = false →
  get_hover self line column = Ok (symbol_hover <$> symbols self !! w) ∧
  get_definition self line column = Ok (definition_of <$> symbols self !! w).
Proof.
  intros Hw Hkw. rewrite (get_hover_target _ _ _ _ Hw),
    (get_definition_target _ _ _ _ Hw).
  cbn [mbind option_bind]. by rewrite Hkw.
Qed.

Lemma X11_hover_and_definition_agree_witness :
  let self := snapshot Docs.parameter in
  get_hover self 3 2 = Ok (symbol_hover <$> symbols self !! "x") ∧
  get_definition self 3 2 = Ok (definition_of <$> symbols self !! "x").
Proof.
  apply (X11_hover_and_definition_agree (snapshot Docs.parameter) 3 2 "x");
    vm_compute; reflexivity.
Defined.

Lemma word_at_outside line_text column :
  column < 0 ∨ Str.len line_text < column →
  word_at line_text column = None.
Proof.
  intros Hc. unfold word_at.
  destruct (find _ _) as [m|] eqn:Hf; [exfalso|done].
  apply find_some in Hf as [Hin Hspan].
  pose proof (finditer_in_subject Pat.word line_text) as Hall.
  rewrite Forall_forall in Hall.
  apply list_elem_of_In, Hall in Hin as (_ & l & _ & _ & Hend).
  apply andb_prop in Hspan as [Hs%Z.leb_le He'%Z.leb_le].
  unfold Re.start, Re.end_ in *. rewrite len_chars in Hc. lia.
Qed.

(** X12.  A column left of the line or right of its end selects no word:
    on an existing line hover and definition return [None] and the
    references are empty. *)
Theorem X12_column_outside_line self line column line_text :
  0 ≤ line →
  lines self !! Z.to_nat line = Some line_text →
  column < 0 ∨ Str.len line_text < column →
  get_hover self line column = Ok None ∧
  get_definition self line column = Ok None ∧
  get_references_at self line column = Ok [].
Proof.
  intros Hl Hline Hc.
  assert (target_word self line column = Ok None) as Hw.
  { unfold target_word, list_index.
    destruct (Z.ltb_spec line 0); [lia|]. destruct (Z.ltb_spec line 0); [lia|].
    rewrite Hline, bind_Ok. by rewrite word_at_outside. }
  rewrite (get_hover_target _ _ _ _ Hw), (get_definition_none _ _ _ Hw),
    (get_references_at_none _ _ _ Hw).
  done.
Qed.

Lemma X12_column_outside_line_witness :
  let self := snapshot Docs.after_comment in
  get_hover self 0 25 = Ok None ∧
  get_definition self 0 25 = Ok None ∧
  get_references_at self 0 25 = Ok [].
Proof.
  apply (X12_column_outside_line (snapshot Docs.after_comment) 0 25
           "COMMENT note; INTEGER x;").
  - lia.
  - vm_compute. reflexivity.
  - right. vm_compute. reflexivity.
Defined.

(** X25.  In a snapshot every location that find-references returns spans
    exactly the word under the position: its end column is its column plus
    the length of that word, and its line and column are not negative. *)
Theorem X25_reference_ranges_span_the_word text line column w :
  target_word (snapshot text) line column = Ok (Some w) →
  ∃ locs,
    get_references_at (snapshot text) line column = Ok locs ∧
    Forall (λ loc, 0 ≤ Location.line loc ∧ 0 ≤ Location.column loc ∧
                   Location.end_column loc
                     = Location.column loc + Str.len w) locs.
Proof.
  intros Hw. rewrite (get_references_at_target _ _ _ _ Hw).
  eexists. split; [done|].
  destruct (snapshot_halves text) as (s7 & _ & _ & _ & _ & _ & Hall).
  induction Hall as [|ref refs Href _ IH]; [done|]. cbn [List.filter].
  destruct (String.eqb_spec (Reference.name ref) w) as [Heq|_]; [|done].
  cbn [map]. constructor; [|done].
  destruct Href as (_ & _ & _ & Hl & Hc & He & _).
  unfold location_of; cbn. by rewrite He, Heq.
Qed.

Lemma X25_reference_ranges_span_the_word_witness :
  ∃ locs,
    get_references_at (snapshot Docs.parameter) 3 2 = Ok locs ∧
    Forall (λ loc, 0 ≤ Location.line loc ∧ 0 ≤ Location.column loc ∧
                   Location.end_column loc
                     = Location.column loc + Str.len "x") locs.
Proof.
  apply (X25_reference_ranges_span_the_word Docs.parameter 3 2 "x").
  vm_compute. reflexivity.
Defined.

(** ** Positions and lines *)

Section PositionsAndLines.
Local Open Scope list_scope.

Lemma rfind_chars_shift c l : ∀ i last,
  Str.rfind_chars c i l last =
    if 0 <=? Str.rfind_chars c 0 l (-1)
    then i + Str.rfind_chars c 0 l (-1) else last.
Proof.
  induction l as [|x l IH]; intros i last; simpl; [done|].
  rewrite (IH (i + 1)), (IH (0 + 1)).
  destruct (0 <=? Str.rfind_chars c 0 l (-1)) eqn:Hr.
  - apply Z.leb_le in Hr.
    destruct (Z.leb_spec 0 (0 + 1 + Str.rfind_chars c 0 l (-1))); lia.
  - destruct (Char.eqb x c); simpl; [lia|done].
Qed.

Lemma split_chars_head sep l : ∀ cur,
  ∃ pre rest, Str.split_chars sep cur l = (rev cur ++ pre) :: rest.
Proof.
  induction l as [|x l IH]; intros cur; simpl.
  - exists [], []. by rewrite app_nil_r.
  - destruct (Char.eqb x sep).
    + exists [], (Str.split_chars sep [] l). by rewrite app_nil_r.
    + destruct (IH (x :: cur)) as (pre & rest & ->).
      exists (x :: pre), rest. simpl. by rewrite <- app_assoc.
Qed.

(** The character at an offset, if it is no newline, is the character at
    the line and column of the offset in the list of lines. *)
Lemma offset_in_split l : ∀ cur off c,
  l !! off = Some c → Char.eqb c Char.LF = false →
  let n := length (filter (λ x, Char.eqb x Char.LF = true) (take off l)) in
  let r := Str.rfind_chars Char.LF 0 (take off l) (-1) in
  ∃ ln, Str.split_chars Char.LF cur l !! n = Some ln ∧
        ln !! Z.to_nat (if 0 <=? r then Z.of_nat off - r - 1
                        else Z.of_nat off + Z.of_nat (length cur)) = Some c.
Proof.
  induction l as [|x l IH]; intros cur off c Hl Hc; [done|].
  destruct off as [|o].
  - injection Hl as <-. cbn [take filter list_filter length Str.rfind_chars].
    cbn [Str.split_chars]. rewrite Hc.
    destruct (split_chars_head Char.LF l (x :: cur)) as (pre & rest & ->).
    eexists. split; [done|]. cbn [Z.leb Z.compare].
    replace (Z.to_nat (Z.of_nat 0 + Z.of_nat (length cur))) with (length cur)
      by lia.
    simpl. rewrite <- app_assoc.
    rewrite lookup_app_r by (rewrite length_rev; lia).
    by rewrite length_rev, Nat.sub_diag.
  - cbn [lookup list_lookup] in Hl. cbn [take Str.split_chars].
    cbn [Str.rfind_chars]. rewrite rfind_chars_shift.
    destruct (Char.eqb x Char.LF) eqn:Hx.
    + rewrite filter_cons_True by done. cbn [length lookup list_lookup].
      destruct (IH [] o c Hl Hc) as (ln & Hln & Hcol).
      exists ln. split; [done|]. cbn [length] in Hcol.
      destruct (Z.leb_spec 0 (Str.rfind_chars Char.LF 0 (take o l) (-1))).
      * destruct (Z.leb_spec 0
          (0 + 1 + Str.rfind_chars Char.LF 0 (take o l) (-1))); [|lia].
        rewrite <- Hcol. f_equal. lia.
      * cbn [Z.leb Z.compare]. rewrite <- Hcol. f_equal. lia.
    + rewrite filter_cons_False by (by rewrite Hx).
      destruct (IH (x :: cur) o c Hl Hc) as (ln & Hln & Hcol).
      exists ln. split; [done|]. cbn [length] in Hcol.
      destruct (Z.leb_spec 0 (Str.rfind_chars Char.LF 0 (take o l) (-1))).
      * destruct (Z.leb_spec 0
          (0 + 1 + Str.rfind_chars Char.LF 0 (take o l) (-1))); [|lia].
        rewrite <- Hcol. f_equal. lia.
      * cbn [Z.leb Z.compare]. rewrite <- Hcol. f_equal. lia.
Qed.

End PositionsAndLines.

(** X13.  [_find_position] agrees with [str.split]: the character at an
    offset of a text, if it is no newline, is the character that the lines
    of the text hold at the line and column of that offset. *)
Theorem X13_find_position_addresses_lines text (off : nat) c :
  Str.chars text !! off = Some c →
  c ≠ Char.LF →
  ∃ ln,
    Str.split Char.LF text
      !! Z.to_nat (_find_position text (Z.of_nat off)).1 = Some ln ∧
    Str.chars ln !! Z.to_nat (_find_position text (Z.of_nat off)).2 = Some c.
Proof.
  intros Hl Hc.
  destruct (offset_in_split (Str.chars text) [] off c Hl) as (ln & Hln & Hcol).
  { unfold Char.eqb. by apply Ascii.eqb_neq. }
  exists (Str.of_chars ln).
  unfold _find_position, Str.count, Str.prefix, Str.rfind, Str.split.
  cbn [fst snd]. rewrite !Nat2Z.id, !chars_of_chars.
  split.
  - by rewrite list_lookup_fmap, Hln.
  - rewrite <- Hcol. f_equal. cbn [length].
    destruct (0 <=? _); lia.
Qed.

Lemma X13_find_position_addresses_lines_witness :
  ∃ ln,
    Str.split Char.LF Docs.shadowing
      !! Z.to_nat (_find_position Docs.shadowing (Z.of_nat 41)).1 = Some ln ∧
    Str.chars ln
      !! Z.to_nat (_find_position Docs.shadowing (Z.of_nat 41)).2 = Some "n"%char.
Proof.
  apply (X13_find_position_addresses_lines Docs.shadowing 41 "n"%char).
  - vm_compute. reflexivity.
  - discriminate.
Defined.

(** ** Comments, lines and the two passes *)

Lemma cut_sublist ms l : ∀ i, sublist (Re.cut ms i l) l.
Proof.
  induction l as [|c l IH]; intros i; simpl; [done|].
  destruct (Re.covered ms i); [by apply sublist_cons|by apply sublist_skip].
Qed.

(** X14.  Removing the comments only deletes characters: what is left is
    the text with some characters taken out, in the same order, so it is
    never longer than the text. *)
Theorem X14_remove_comments_only_deletes text :
  sublist (Str.chars (_remove_comments text)) (Str.chars text) ∧
  Str.len (_remove_comments text) ≤ Str.len text.
Proof.
  assert (sublist (Str.chars (_remove_comments text)) (Str.chars text)) as H.
  { unfold _remove_comments, Re.sub_empty. rewrite chars_of_chars.
    apply cut_sublist. }
  split; [done|]. rewrite !len_chars. apply sublist_length in H. lia.
Qed.

(** X15.  The lines of a snapshot are the lines of the raw text, comments
    included, whatever state the instance was in: one line more than the
    text has newlines. *)
Theorem X15_lines_of_raw_text text self :
  ∃ self', parse text self = Ok self' ∧
           lines self' = Str.split Char.LF text ∧
           Z.of_nat (length (lines self')) = Str.count Char.LF text + 1.
Proof.
  destruct (parse_ok text self) as (self' & Hp & _ & Hl).
  exists self'. split; [done|]. split; [done|]. rewrite Hl.
  unfold Str.split, Str.count. rewrite length_map.
  assert (∀ l cur, length (Str.split_chars Char.LF cur l)
            = S (length (filter (λ x, Char.eqb x Char.LF = true) l))) as H.
  { induction l as [|x l IH]; intros cur; simpl; [done|].
    destruct (Char.eqb x Char.LF) eqn:Hx.
    - rewrite filter_cons_True by done. simpl. by rewrite IH.
    - rewrite filter_cons_False by (by rewrite Hx). apply IH. }
  rewrite H. lia.
Qed.

(** X16.  The reference pass never changes the symbol table, on any text
    and from any state of the parser. *)
Theorem X16_reference_pass_keeps_symbols text self :
  ∃ self', _parse_references text self = Ok self' ∧
           get_symbols self' = get_symbols self.
Proof.
  destruct (_parse_references_frame text self) as (self' & Hp & Hs & _).
  by exists self'.
Qed.

(** X17.  The seven declaration passes never touch the references, on any
    text and from any state of the parser. *)
Theorem X17_declaration_passes_keep_references text self :
  ∃ self', declarations text self = Ok self' ∧
           get_references self' = get_references self.
Proof.
  destruct (declarations_table_ok text self) as (self' & Hp & _ & Hr).
  by exists self'.
Qed.

(** ** The language server *)

Section ServerFacts.
Import LSP.

Lemma _update_document_snapshot uri text self :
  _update_document uri text self =
    Ok (Server (<[uri := text]> (documents self))
               (<[uri := snapshot text]> (parsers self))).
Proof.
  unfold _update_document. pose proof (analyse_snapshot text) as Ha.
  unfold analyse in Ha. by rewrite Ha.
Qed.

(** X18.  [didOpen] never raises; it stores the text and a snapshot of it
    made by a new parser under the URI, and leaves the text and the parser
    of every other URI as they were. *)
Theorem X18_did_open_installs_snapshot uri text self :
  ∃ self', _handle_did_open uri text self = Ok self' ∧
    documents self' !! uri = Some text ∧
    parsers self' !! uri = Some (snapshot text) ∧
    ∀ uri', uri' ≠ uri →
      documents self' !! uri' = documents self !! uri' ∧
      parsers self' !! uri' = parsers self !! uri'.
Proof.
  unfold _handle_did_open. rewrite _update_document_snapshot.
  eexists. split; [done|]. cbn [documents parsers].
  rewrite !lookup_insert_eq. split_and!; [done..|].
  intros uri' Hne. by rewrite !lookup_insert_ne.
Qed.

(** X19.  A change replaces the document wholesale: opening a document and
    then changing it leaves the server exactly as opening it with the text
    of the first change does; further changes of the same notification are
    ignored, and a change without text counts as the empty text. *)
Theorem X19_change_replaces_document uri text change changes self :
  (self1 ← _handle_did_open uri text self;
   _handle_did_change uri (Some (change :: changes)) self1)
  = _handle_did_open uri (default "" change) self.
Proof.
  unfold _handle_did_open, _handle_did_change.
  rewrite !_update_document_snapshot.
  cbn [mbind pyres_bind pybind default from_option id].
  rewrite _update_document_snapshot.
  cbn [documents parsers]. by rewrite !insert_insert_eq.
Qed.

(** X20.  Opening a document that is not open and closing it again leaves
    the server as it was. *)
Theorem X20_open_then_close_restores uri text self :
  documents self !! uri = None →
  parsers self !! uri = None →
  (self1 ← _handle_did_open uri text self; Ok (_handle_did_close uri self1))
  = Ok self.
Proof.
  intros Hd Hp. unfold _handle_did_open.
  rewrite _update_document_snapshot, bind_Ok. unfold _handle_did_close.
  cbn [documents parsers]. rewrite !lookup_insert_eq. cbn [documents parsers].
  rewrite lookup_insert_eq, !delete_insert_id by done.
  by destruct self.
Qed.

Lemma X20_open_then_close_restores_witness :
  (self1 ← _handle_did_open "file:///a.cor" Docs.duplicate LSP.__init__;
   Ok (_handle_did_close "file:///a.cor" self1))
  = Ok LSP.__init__.
Proof.
  apply (X20_open_then_close_restores "file:///a.cor" Docs.duplicate
           LSP.__init__); reflexivity.
Defined.

(** X21.  After [didClose] the server holds neither text nor parser for
    the URI, so hover and definition on it return [None] and references
    the empty list, at every position; other URIs keep their parsers. *)
Theorem X21_closed_document_answers_nothing uri self line character :
  let self' := _handle_did_close uri self in
  documents self' !! uri = None ∧
  parsers self' !! uri = None ∧
  _handle_hover self' uri line character = Ok None ∧
  _handle_definition self' uri line character = Ok None ∧
  _handle_references self' uri line character = Ok [] ∧
  ∀ uri', uri' ≠ uri → parsers self' !! uri' = parsers self !! uri'.
Proof.
  intros self'.
  assert (documents self' !! uri = None ∧ parsers self' !! uri = None ∧
          ∀ uri', uri' ≠ uri → parsers self' !! uri' = parsers self !! uri')
    as (Hd & Hp & Ho).
  { unfold self', _handle_did_close.
    destruct (documents self !! uri) eqn:Hd;
      cbn [documents parsers];
      destruct (parsers self !! uri) eqn:Hp; cbn [documents parsers];
      rewrite ?lookup_delete_eq; split_and!; try done;
      intros uri' Hne; by rewrite ?lookup_delete_ne. }
  unfold _handle_hover, _handle_definition, _handle_references.
  by rewrite Hp.
Qed.



Lemma get_definition_some self line column d :
  get_definition self line column = Ok (Some d) →
  ∃ key sym, symbols self !! key = Some sym ∧ d = definition_of sym.
Proof.
  unfold get_definition. destruct (_ <=? _); [done|].
  destruct (list_index (lines self) line) as [line_text|]; [|done].
  cbn [mbind pyres_bind pybind].
  destruct (word_at line_text column) as [m|]; [|done].
  destruct (Re.group m 1) as [g1|]; [|done].
  cbn [attr mbind pyres_bind pybind].
  destruct (symbols self !! Str.lower g1) as [sym|] eqn:Hs; [|done].
  intros [= <-]. by exists (Str.lower g1), sym.
Qed.

(** X23.  When the server holds the snapshot of a text for a URI, a
    definition it answers carries that URI and a range on one line, at a
    line and a character that are not negative, whose end is not before
    its start. *)
Theorem X23_definition_range_well_formed self uri text line character loc :
  parsers self !! uri = Some (snapshot text) →
  _handle_definition self uri line character = Ok (Some loc) →
  LSP.uri loc = uri ∧
  LSP.line (end_ (range loc)) = LSP.line (start (range loc)) ∧
  0 ≤ LSP.line (start (range loc)) ∧
  0 ≤ LSP.character (start (range loc))
    ≤ LSP.character (end_ (range loc)).
Proof.
  intros Hp. unfold _handle_definition. rewrite Hp.
  destruct (get_definition (snapshot text) line character) as [[d|]|] eqn:Hd;
    [|done..].
  cbn [mbind pyres_bind pybind]. intros [= <-]. cbn.
  apply get_definition_some in Hd as (key & sym & Hs & ->).
  destruct (snapshot_table_ok text key sym Hs) as (_ & _ & (Hl & Hc & _) & _).
  cbn [definition_of Definition_.line Definition_.column Definition_.name].
  pose proof (len_chars (Symbol.name sym)). split_and!; try done; lia.
Qed.

Lemma X23_definition_range_well_formed_witness :
  let loc :=
    {| uri := "file:///a.cor";
       range := {| start := {| line := 3; character := 2 |};
                   end_ := {| line := 3; character := 3 |} |} |} in
  LSP.uri loc = "file:///a.cor" ∧
  LSP.line (end_ (range loc)) = LSP.line (start (range loc)) ∧
  0 ≤ LSP.line (start (range loc)) ∧
  0 ≤ LSP.character (start (range loc))
    ≤ LSP.character (end_ (range loc)).
Proof.
  apply (X23_definition_range_well_formed
           (Server {["file:///a.cor" := Docs.shadowing]}
                   {["file:///a.cor" := snapshot Docs.shadowing]})
           "file:///a.cor" Docs.shadowing 6 0);
    vm_compute; reflexivity.
Defined.

(** X24.  The server keeps texts and parsers in step: if for every URI the
    parser held is the snapshot of the text held, the same is true after
    [didOpen], after [didChange] and after [didClose], none of which
    raises. *)
Theorem X24_notifications_keep_sync self :
  in_sync self →
  (∀ uri text, ∃ self',
     _handle_did_open uri text self = Ok self' ∧ in_sync self') ∧
  (∀ uri changes, ∃ self',
     _handle_did_change uri changes self = Ok self' ∧ in_sync self') ∧
  (∀ uri, in_sync (_handle_did_close uri self)).
Proof.
  intros Hsync.
  assert (∀ uri text, ∃ self',
            _update_document uri text self = Ok self' ∧ in_sync self') as Hup.
  { intros uri text. rewrite _update_document_snapshot.
    eexists. split; [done|]. intros uri'. cbn [documents parsers].
    destruct (decide (uri = uri')) as [->|Hne].
    - by rewrite !lookup_insert_eq.
    - rewrite !lookup_insert_ne by done. apply Hsync. }
  split_and!.
  - exact Hup.
  - intros uri changes. unfold _handle_did_change.
    destruct (default [] changes) as [|change ?]; [by exists self|].
    apply Hup.
  - intros uri uri'. unfold _handle_did_close.
    pose proof (Hsync uri) as Hu. pose proof (Hsync uri') as Hu'.
    destruct (documents self !! uri) as [text|] eqn:Hd;
      cbn [documents parsers]; rewrite Hu; cbn [fmap option_fmap option_map];
      cbn [documents parsers]; [|done].
    destruct (decide (uri = uri')) as [->|Hne].
    + by rewrite !lookup_delete_eq.
    + by rewrite !lookup_delete_ne.
Qed.

Lemma X24_notifications_keep_sync_witness :
  (∀ uri text, ∃ self',
     _handle_did_open uri text LSP.__init__ = Ok self' ∧ in_sync self') ∧
  (∀ uri changes, ∃ self',
     _handle_did_change uri changes LSP.__init__ = Ok self' ∧
     in_sync self') ∧
  (∀ uri, in_sync (_handle_did_close uri LSP.__init__)).
Proof.
  apply (X24_notifications_keep_sync LSP.__init__).
  intros uri. reflexivity.
Defined.

End ServerFacts.

(** ** What the matcher matches *)

Section Language.
Import Re ReFacts.
Local Open Scope list_scope.

Lemma lang_star_app r l1 l2 :
  lang (Star r) l1 → lang (Star r) l2 → lang (Star r) (l1 ++ l2).
Proof.
  intros H1 H2. remember (Star r) as r' eqn:Hr.
  induction H1 as [| | | | | |r0 la lb Ha _ Hb IH| | |]; try discriminate.
  - done.
  - injection Hr as ->. rewrite <- app_assoc.
    apply lang_star_cons; [done|]. by apply IH.
Qed.

#[local] Instance spans_star_preorder r : PreOrder (spans (Star r)).
Proof.
  split.
  - intros st. exists []. split_and!; [done|simpl; lia|constructor].
  - intros st1 st2 st3 (l1 & Hr1 & Hp1 & H1) (l2 & Hr2 & Hp2 & H2).
    exists (l1 ++ l2). rewrite length_app, <- app_assoc, <- Hr2.
    split_and!; [done|lia|by apply lang_star_app].
Qed.

(** The matcher is sound: the continuation of a successful match of [r]
    runs further on in the subject by a text of the language of [r]. *)
Lemma rmatch_lang r :
  ∀ st k res, rmatch r st k = Some res →
    ∃ st', k st' = Some res ∧ spans r st st'.
Proof.
  induction r as [|p|r1 IH1 r2 IH2|r1 IH1 r2 IH2|r1 IH1|g r1 IH1| |r1 IH1];
    intros st k res Hres; simpl in Hres.
  - exists st. split; [done|]. exists []. by split_and!; [|simpl; lia|constructor].
  - destruct (m_rest st) as [|c cs] eqn:Hrest; [done|].
    destruct (p c) eqn:Hp; [|done].
    exists (advance c cs st). split; [done|].
    exists [c]. split_and!; [done|simpl; lia|by constructor].
  - apply IH1 in Hres as (st1 & Hres & l1 & Hr1 & Hp1 & H1).
    apply IH2 in Hres as (st2 & Hres & l2 & Hr2 & Hp2 & H2).
    exists st2. split; [done|]. exists (l1 ++ l2).
    rewrite length_app, <- app_assoc, <- Hr2.
    split_and!; [done|lia|by constructor].
  - destruct (rmatch r1 st k) as [res'|] eqn:H1.
    + injection Hres as ->. apply IH1 in H1 as (st' & Hk & l & ? & ? & ?).
      exists st'. split; [done|]. exists l. split_and!; [done..|].
      by apply lang_alt_l.
    + apply IH2 in Hres as (st' & Hk & l & ? & ? & ?).
      exists st'. split; [done|]. exists l. split_and!; [done..|].
      by apply lang_alt_r.
  - apply (star_iter_sound (spans (Star r1))) in Hres; [done|].
    intros st0 k' res' H'. apply IH1 in H' as (st' & ? & l & ? & ? & ?).
    exists st'. split; [done|]. exists l. split_and!; [done..|].
    rewrite <- (app_nil_r l). apply lang_star_cons; [done|constructor].
  - apply IH1 in Hres as (st1 & Hk & l & ? & ? & ?).
    exists (capture g (m_pos st) st1). split; [done|].
    exists l. split_and!; [done..|]. by constructor.
  - destruct (at_boundary st); [|done].
    exists st. split; [done|]. exists []. by split_and!; [|simpl; lia|constructor].
  - destruct (rmatch r1 st Some); [done|].
    exists st. split; [done|]. exists []. by split_and!; [|simpl; lia|constructor].
Qed.

Lemma lang_star_chr p l :
  lang (Star (Chr p)) l → Forall (λ c, p c = true) l.
Proof.
  intros H. remember (Star (Chr p)) as r eqn:Hr.
  induction H as [| | | | | |r0 la lb Ha _ Hb IH| | |]; try discriminate.
  - constructor.
  - injection Hr as ->. inversion Ha; subst.
    constructor; [done|]. by apply IH.
Qed.

(** An identifier: a letter, then letters and digits. *)
Lemma lang_ident l :
  lang Pat.ident l →
  ∃ c l', l = c :: l' ∧ Char.is_alpha c = true ∧
          Forall (λ c, Char.is_alnum c = true) l'.
Proof.
  intros H. unfold Pat.ident in H. inversion H as [| |? ? la lb Ha Hb| | | | | | |]; subst.
  inversion Ha; subst. exists c, lb. split_and!; [done..|].
  by apply lang_star_chr.
Qed.

Lemma lang_word l : lang Pat.word l → lang Pat.ident l.
Proof.
  intros H. unfold Pat.word, Cat in H; cbn [foldr] in H.
  inversion H as [| |? ? l1 l2 H1 H2| | | | | | |]; subst.
  inversion H1; subst.
  inversion H2 as [| |? ? l3 l4 H3 H4| | | | | | |]; subst.
  inversion H3; subst.
  inversion H4 as [| |? ? l5 l6 H5 H6| | | | | | |]; subst.
  inversion H5; subst. inversion H6; subst.
  by rewrite !app_nil_r.
Qed.

End Language.

(** ** References sit where their names are written *)

Section ReferencesOnLines.
Import Re ReFacts.
Local Open Scope list_scope.

(** What holds of every match at a position of the subject holds of every
    match of a scan. *)
Lemma scan_forall r text (P : rematch → Prop) :
  (∀ pos prev st, (pos ≤ length text)%nat →
     rmatch r (MState pos prev (drop pos text) ∅) Some = Some st →
     P (ReMatch text pos (m_pos st) (m_caps st))) →
  ∀ rest pos prev skip, drop pos text = rest → (pos ≤ length text)%nat →
    Forall P (scan r text pos prev rest skip).
Proof.
  intros Hone rest.
  induction rest as [|c cs IH]; intros pos prev skip Hd Hpos.
  - destruct skip; cbn [scan]; [|done].
    destruct (rmatch _ _ _) as [st|] eqn:Hm; [|done].
    constructor; [|done]. apply (Hone pos prev); [done|]. by rewrite Hd.
  - assert (drop (S pos) text = cs) as Hd'.
    { replace (S pos) with (pos + 1)%nat by lia.
      by rewrite <- drop_drop, Hd. }
    assert (S pos ≤ length text)%nat as Hpos'.
    { apply (f_equal length) in Hd. rewrite length_drop in Hd.
      simpl in Hd. lia. }
    destruct skip; cbn [scan]; [|by apply IH].
    destruct (rmatch _ _ _) as [st|] eqn:Hm; [|by apply IH].
    constructor; [|by apply IH]. apply (Hone pos prev); [done|]. by rewrite Hd.
Qed.

(** A match of the word pattern: group 1 is the identifier that the
    subject holds from the start of the match. *)
Lemma finditer_word_idents s :
  Forall (λ m, ∃ l, group m 1 = Some (Str.of_chars l) ∧
                    lang Pat.ident l ∧
                    take (length l) (drop (mt_start m) (Str.chars s)) = l)
    (finditer Pat.word s).
Proof.
  unfold finditer. apply scan_forall; [|done|lia].
  intros pos prev st Hpos Hm.
  pose proof Hm as Hm'.
  apply word_span in Hm as (l & Hl & Hr & Hc).
  apply rmatch_lang in Hm' as (st' & [= ->] & l' & Hr' & _ & Hlang).
  cbn [m_rest m_pos] in Hr, Hr', Hc.
  assert (l' = l) as ->.
  { rewrite Hr in Hr'. by apply app_inv_tail in Hr'. }
  exists l. unfold group. cbn [mt_caps mt_text mt_start].
  rewrite Hc. cbn [fmap option_fmap option_map fst snd].
  unfold Str.slice.
  replace (pos + length l - pos)%nat with (length l) by lia.
  rewrite Hr, take_app_length. split_and!; [done| |done].
  by apply lang_word.
Qed.

Lemma rfind_chars_app c x : ∀ y i last,
  Str.rfind_chars c i (x ++ y) last
  = Str.rfind_chars c (i + Z.of_nat (length x)) y (Str.rfind_chars c i x last).
Proof.
  induction x as [|a x IH]; intros y i last; simpl.
  - by rewrite Z.add_0_r.
  - rewrite IH. f_equal. lia.
Qed.

Lemma rfind_chars_absent c y : ∀ i last,
  Forall (λ a, Char.eqb a c = false) y → Str.rfind_chars c i y last = last.
Proof.
  induction y as [|a y IH]; intros i last Hy; simpl; [done|].
  inversion Hy as [|? ? Ha Hy']; subst. rewrite Ha. by apply IH.
Qed.

Lemma filter_absent c (y : list ascii) :
  Forall (λ a, Char.eqb a c = false) y →
  filter (λ a, Char.eqb a c = true) y = [].
Proof.
  induction 1 as [|a y Ha _ IH]; [done|].
  rewrite filter_cons_False by (by rewrite Ha). done.
Qed.

(** A stretch of the text without newline lies on one line of the text, at
    the column of its first character. *)
Lemma stretch_on_line text a l rest :
  drop a text = l ++ rest →
  l ≠ [] →
  Forall (λ c, Char.eqb c Char.LF = false) l →
  let n := length (filter (λ x, Char.eqb x Char.LF = true) (take a text)) in
  let r := Str.rfind_chars Char.LF 0 (take a text) (-1) in
  ∃ ln, Str.split_chars Char.LF [] text !! n = Some ln ∧
        take (length l)
          (drop (Z.to_nat (if 0 <=? r then Z.of_nat a - r - 1 else Z.of_nat a))
             ln) = l.
Proof.
  intros Hd Hne Hl n r.
  set (col := Z.to_nat (if 0 <=? r then Z.of_nat a - r - 1 else Z.of_nat a)).
  assert (Htext : text = take a text ++ l ++ rest).
  { by rewrite <- Hd, take_drop. }
  assert (Ha : length (take a text) = a).
  { apply length_take_le. apply (f_equal length) in Hd.
    rewrite length_drop, length_app in Hd.
    destruct l; [done|]. simpl in Hd. lia. }
  assert (Hat : ∀ i c, l !! i = Some c →
    ∃ ln, Str.split_chars Char.LF [] text !! n = Some ln ∧
          ln !! (col + i)%nat = Some c).
  { intros i c Hi.
    assert (Hoff : text !! (a + i)%nat = Some c).
    { rewrite Htext, lookup_app_r by lia. rewrite Ha.
      replace (a + i - a)%nat with i by lia. by apply lookup_app_l_Some. }
    assert (Hc : Char.eqb c Char.LF = false).
    { rewrite Forall_forall in Hl. apply Hl. by eapply list_elem_of_lookup_2. }
    destruct (offset_in_split text [] (a + i) c Hoff Hc) as (ln & Hln & Hcol).
    assert (Htake : take (a + i) text = take a text ++ take i l).
    { rewrite Htext at 1. rewrite take_app_ge by lia. rewrite Ha.
      replace (a + i - a)%nat with i by lia. f_equal.
      apply take_app_le. apply lookup_lt_Some in Hi. lia. }
    assert (Hmid : Forall (λ c, Char.eqb c Char.LF = false) (take i l)).
    { rewrite Forall_forall in Hl |- *. intros x Hx. apply Hl.
      apply elem_of_take in Hx as (j & Hj & _).
      by eapply list_elem_of_lookup_2. }
    rewrite Htake, filter_app, (filter_absent _ _ Hmid), app_nil_r in Hln.
    rewrite Htake, rfind_chars_app, (rfind_chars_absent _ _ _ _ Hmid) in Hcol.
    exists ln. split; [done|]. rewrite <- Hcol. f_equal.
    unfold col. fold r. cbn [length].
    pose proof (rfind_chars_range Char.LF (take a text) 0 (-1)) as Hr.
    fold r in Hr. rewrite Ha in Hr.
    destruct (Z.leb_spec 0 r); lia. }
  destruct l as [|c0 l0]; [done|].
  destruct (Hat 0%nat c0 eq_refl) as (ln & Hln & _).
  exists ln. split; [done|].
  apply list_eq. intros i.
  destruct ((c0 :: l0) !! i) as [c|] eqn:Hi.
  - destruct (Hat i c Hi) as (ln' & Hln' & Hc).
    rewrite Hln in Hln'. injection Hln' as <-.
    rewrite lookup_take_lt by (by apply lookup_lt_Some in Hi).
    by rewrite lookup_drop.
  - apply lookup_ge_None in Hi. by rewrite lookup_take_ge.
Qed.

Lemma alnum_not_LF c :
  Char.is_alnum c = true → Char.eqb c Char.LF = false.
Proof. by destruct c as [[] [] [] [] [] [] [] []]. Qed.

Lemma length_chars s : String.length s = length (Str.chars s).
Proof. induction s as [|c s IH]; simpl; congruence. Qed.

Lemma ident_no_newline l :
  lang Pat.ident l →
  l ≠ [] ∧ Forall (λ c, Char.eqb c Char.LF = false) l.
Proof.
  intros (c & l' & -> & Hc & Hl')%lang_ident. split; [done|].
  constructor.
  - apply alnum_not_LF. unfold Char.is_alnum. by rewrite Hc.
  - eapply Forall_impl; [exact Hl'|]. intros x. apply alnum_not_LF.
Qed.

(** The occurrence recorded for a word sits on its name in the lines of
    the text that was scanned. *)
Lemma record_reference_written text m s :
  (∃ l, group m 1 = Some (Str.of_chars l) ∧ lang Pat.ident l ∧
        take (length l) (drop (mt_start m) (Str.chars text)) = l) →
  ∃ s', record_reference text m s = Ok s' ∧
        (Forall (written_at (Str.split Char.LF text)) (references s) →
         Forall (written_at (Str.split Char.LF text)) (references s')).
Proof.
  intros (l & Hg & Hlang & Htake). unfold record_reference. rewrite Hg.
  cbn [attr mbind pyres_bind pybind].
  destruct (is_keyword _); [by eexists|].
  destruct (ident_no_newline l Hlang) as [Hne Hnl].
  assert (drop (mt_start m) (Str.chars text)
          = l ++ drop (length l) (drop (mt_start m) (Str.chars text))) as Hd.
  { by rewrite <- Htake at 1; rewrite take_drop. }
  destruct (stretch_on_line _ _ _ _ Hd Hne Hnl) as (ln & Hln & Hcol).
  unfold _find_position, Str.count, Str.prefix, Str.rfind, start.
  rewrite !Nat2Z.id, chars_of_chars.
  eexists. split; [done|]. intros Hall. cbn [add_reference references].
  apply Forall_app. split; [done|]. constructor; [|done].
  exists (Str.of_chars ln).
  cbn [Reference.name Reference.line Reference.column].
  rewrite Nat2Z.id. unfold Str.split. rewrite list_lookup_fmap, Hln.
  split; [done|].
  rewrite chars_of_chars, length_chars. unfold Str.lower at 2.
  by rewrite chars_of_chars, length_map, chars_of_chars, Hcol.
Qed.

Lemma _parse_references_written text s :
  ∃ s', _parse_references text s = Ok s' ∧
        (Forall (written_at (Str.split Char.LF text)) (references s) →
         Forall (written_at (Str.split Char.LF text)) (references s')).
Proof.
  pose (R := λ s s' : CORAL66Parser,
          Forall (written_at (Str.split Char.LF text)) (references s) →
          Forall (written_at (Str.split Char.LF text)) (references s')).
  assert (Reflexive R) by (intros s1 H1; exact H1).
  assert (Transitive R) by (intros s1 s2 s3 H1 H2 H3; apply H2, H1, H3).
  apply (for_each_ok R _ _ _ (record_reference_written text)).
  apply finditer_word_idents.
Qed.

End ReferencesOnLines.

(** X26.  In a text from which comment removal takes nothing, every
    recorded reference sits on its name: the line of the document that it
    names spells the name, up to case, from its column on. *)
Theorem X26_references_sit_on_their_names text :
  _remove_comments text = text →
  Forall (written_at (lines (snapshot text))) (references (snapshot text)).
Proof.
  intros Hclean.
  destruct (parse_ok text __init__) as (s' & Hp & _ & Hlines).
  pose proof (analyse_snapshot text) as Ha. unfold analyse in Ha.
  rewrite Hp in Ha. injection Ha as ->. rewrite Hlines.
  destruct (snapshot_halves text) as (s7 & _ & Hrefs & _ & Hnil & _).
  rewrite Hclean in Hrefs.
  destruct (_parse_references_written text s7) as (s8 & Hp8 & Hall).
  rewrite Hrefs in Hp8. injection Hp8 as <-.
  apply Hall. by rewrite Hnil.
Qed.

Lemma X26_references_sit_on_their_names_witness :
  Forall (written_at (lines (snapshot Docs.parameter)))
    (references (snapshot Docs.parameter)).
Proof.
  apply (X26_references_sit_on_their_names Docs.parameter).
  vm_compute. reflexivity.
Defined.

(** ** References in document order *)

Section DocumentOrder.
Import Re ReFacts.
Local Open Scope list_scope.

Lemma filter_nil_absent c (y : list ascii) :
  filter (λ a, Char.eqb a c = true) y = [] →
  Forall (λ a, Char.eqb a c = false) y.
Proof.
  induction y as [|a y IH]; [done|].
  destruct (Char.eqb a c) eqn:Ha.
  - by rewrite filter_cons_True.
  - rewrite filter_cons_False by (by rewrite Ha). intros Hy.
    constructor; [done|by apply IH].
Qed.

(** A later offset has a later position. *)
Lemma _find_position_mono text (a b : nat) :
  (a < b)%nat →
  pos_before (_find_position text (Z.of_nat a))
             (_find_position text (Z.of_nat b)).
Proof.
  intros Hab. unfold pos_before, _find_position, Str.count, Str.prefix,
    Str.rfind. cbn [fst snd]. rewrite !Nat2Z.id, !chars_of_chars.
  set (l := Str.chars text).
  assert (take b l = take a l ++ take (b - a) (drop a l)) as ->.
  { rewrite take_take_drop. f_equal. lia. }
  set (mid := take (b - a) (drop a l)).
  rewrite filter_app, length_app, rfind_chars_app.
  destruct (filter (λ x, Char.eqb x Char.LF = true) mid) as [|x fs] eqn:Hf.
  - right. split; [simpl; lia|].
    apply filter_nil_absent in Hf. rewrite (rfind_chars_absent _ mid _ _ Hf).
    destruct (0 <=? _); lia.
  - left. simpl. lia.
Qed.

(** The matches of a scan start one after the other. *)
Lemma scan_starts r text :
  ∀ rest pos prev skip,
    Forall (λ m, (pos ≤ mt_start m)%nat) (scan r text pos prev rest skip) ∧
    StronglySorted (λ m1 m2, (mt_start m1 < mt_start m2)%nat)
      (scan r text pos prev rest skip).
Proof.
  intros rest. induction rest as [|c cs IH]; intros pos prev skip.
  - destruct skip; cbn [scan]; [|by split; constructor].
    destruct (rmatch _ _ _); split; repeat constructor.
  - destruct skip as [|skip]; cbn [scan].
    + destruct (rmatch _ _ _) as [st|].
      * destruct (IH (S pos) (Some c) (m_pos st - pos - 1)%nat) as [Hge Hs].
        split.
        -- constructor; [done|]. eapply Forall_impl; [exact Hge|].
           intros m ?. simpl in *. lia.
        -- constructor; [done|]. eapply Forall_impl; [exact Hge|].
           intros m ?. simpl in *. lia.
      * destruct (IH (S pos) (Some c) 0%nat) as [Hge Hs]. split; [|done].
        eapply Forall_impl; [exact Hge|]. intros m ?. simpl in *. lia.
    + destruct (IH (S pos) (Some c) skip) as [Hge Hs]. split; [|done].
      eapply Forall_impl; [exact Hge|]. intros m ?. simpl in *. lia.
Qed.

(** One step of the reference pass records the occurrence of its match,
    if the word is no keyword. *)
Lemma record_reference_step text m s :
  is_Some (group m 1) →
  record_reference text m s =
    Ok (from_option (λ ref, add_reference ref s) s (reference_of text m)).
Proof.
  intros [g Hg]. unfold record_reference, reference_of. rewrite Hg.
  cbn [attr mbind pyres_bind pybind option_bind].
  destruct (is_keyword (Str.upper g)); [done|].
  by destruct (_find_position text (start m)).
Qed.

(** The reference pass in closed form: it appends, match by match, the
    occurrences of the words that are no keywords. *)
Lemma for_each_record text ms : ∀ s,
  Forall (λ m, is_Some (group m 1)) ms →
  for_each ms (record_reference text) s =
    Ok (Parser (symbols s) (references s ++ omap (reference_of text) ms)
          (diagnostics s) (lines s) (current_scope s) (scope_stack s)).
Proof.
  induction ms as [|m ms IH]; intros s Hall.
  - simpl. rewrite app_nil_r. by destruct s.
  - inversion Hall as [|? ? Hg Hall']; subst.
    cbn [for_each omap list_omap].
    rewrite (record_reference_step _ _ _ Hg), bind_Ok, IH by done.
    destruct (reference_of text m) as [ref|]; cbn [from_option]; [|done].
    cbn [add_reference symbols references diagnostics
         lines current_scope scope_stack].
    by rewrite <- app_assoc.
Qed.

Lemma omap_sorted text ms :
  StronglySorted (λ m1 m2, (mt_start m1 < mt_start m2)%nat) ms →
  StronglySorted ref_before (omap (reference_of text) ms).
Proof.
  induction 1 as [|m ms _ IH Hm]; cbn [omap list_omap]; [constructor|].
  destruct (reference_of text m) as [ref|] eqn:Href; [|done].
  constructor; [done|].
  rewrite Forall_forall. intros ref' Hin.
  apply list_elem_of_omap in Hin as (m' & Hin & Href').
  rewrite Forall_forall in Hm. specialize (Hm m' Hin).
  unfold reference_of in Href, Href'.
  destruct (group m 1) as [g|]; [|done].
  destruct (group m' 1) as [g'|]; [|done].
  cbn [mbind option_bind] in Href, Href'.
  destruct (is_keyword (Str.upper g)); [done|].
  destruct (is_keyword (Str.upper g')); [done|].
  injection Href as <-. injection Href' as <-.
  unfold ref_before, start. cbn [Reference.line Reference.column].
  exact (_find_position_mono text _ _ Hm).
Qed.

Lemma snapshot_references text :
  references (snapshot text) =
    omap (reference_of (_remove_comments text))
      (finditer Pat.word (_remove_comments text)).
Proof.
  destruct (snapshot_halves text) as (s7 & _ & Hp & _ & Hnil & _).
  unfold _parse_references in Hp.
  rewrite for_each_record in Hp by (by apply finditer_binds).
  injection Hp as <-. cbn [references]. by rewrite Hnil.
Qed.

End DocumentOrder.

(** X27.  The references of a snapshot are recorded in document order:
    each one lies at a position strictly after that of every reference
    before it in the list, so no position is recorded twice. *)
Theorem X27_references_in_document_order text :
  StronglySorted ref_before (references (snapshot text)).
Proof.
  rewrite snapshot_references. apply omap_sorted.
  apply scan_starts.
Qed.

(** ** Find-references in document order *)

(** Selecting occurrences and turning them into locations keeps their
    order. *)
Lemma sorted_locations (p : Reference.t → bool) refs :
  StronglySorted ref_before refs →
  StronglySorted loc_before (map location_of (List.filter p refs)).
Proof.
  induction 1 as [|ref refs _ IH Hall]; cbn [List.filter map]; [constructor|].
  destruct (p ref); cbn [map]; [|done].
  constructor; [done|].
  apply List.Forall_forall. intros loc Hin.
  apply in_map_iff in Hin as (ref' & <- & Hin).
  apply filter_In in Hin as [Hin _].
  rewrite List.Forall_forall in Hall. exact (Hall ref' Hin).
Qed.

(** X28.  The locations that find-references returns on a snapshot are in
    document order: each one lies strictly after those before it, so no
    location is returned twice. *)
Theorem X28_found_references_in_document_order text line column locs :
  get_references_at (snapshot text) line column = Ok locs →
  StronglySorted loc_before locs.
Proof.
  intros H. unfold get_references_at in H.
  destruct (_ <=? line); [injection H as <-; constructor|].
  destruct (list_index _ line) as [line_text|]; [|done].
  cbn [mbind pyres_bind pybind] in H.
  destruct (word_at line_text column) as [m|].
  - destruct (Re.group m 1) as [g|]; [|done].
    cbn [attr mbind pyres_bind pybind] in H.
    destruct (Str.is_empty _); [injection H as <-; constructor|].
    injection H as <-. apply sorted_locations.
    rewrite snapshot_references. apply omap_sorted. apply scan_starts.
  - cbn [mbind pyres_bind pybind] in H. injection H as <-. constructor.
Qed.

Lemma X28_found_references_in_document_order_witness :
  StronglySorted loc_before
    [ Location.Make 0 8 9; Location.Make 1 27 28;
      Location.Make 3 2 3; Location.Make 5 0 1 ].
Proof.
  apply (X28_found_references_in_document_order Docs.parameter 3 2).
  vm_compute. reflexivity.
Defined.
